(** * The symbolic memory model of Alive2 ([ir/memory.cpp])

    [Memory] and [Pointer] build bit-vector terms of the SMT layer and hand
    boolean terms to the verification state.  The development follows the
    code: terms are an inductive type, the functions of [ir/memory.cpp]
    build terms, and a denotation of terms in a model of the free symbols
    gives the properties their meaning. *)

From Stdlib Require Import ZArith List String Bool Lia DecimalString DecimalN.
Import ListNotations.
Local Open Scope Z_scope.

(** ** Machine integers *)

(** A value kept on [w] bits. *)
Definition wrap (w v : Z) : Z := Z.land v (Z.ones w).

(** The two's complement reading of a [w]-bit value. *)
Definition signed (w v : Z) : Z :=
  let u := wrap w v in if u <? 2 ^ (w - 1) then u else u - 2 ^ w.

(** C++ [unsigned] and [uint64_t]. *)
Definition u32 (n : Z) : Z := wrap 32 n.
Definition u64 (n : Z) : Z := wrap 64 n.

(** Modelled from the spec: [divide_up] of util/compiler.h, which is not part
    of the sources at hand; section 4.2 writes it as the ceiling of [b/8].
    The widths of types stay far below [2 ^ 32], so the sum does not wrap. *)
Definition divide_up (n d : Z) : Z := (n + d - 1) / d.

(** ** The term algebra *)

Module SMT.

Set Warnings "-register-all".

(** The comparison tags, as [CmpPred::Pred] of [ir/constant.h] lists them. *)
Inductive Pred := EQ | NE | SLE | SLT | SGE | SGT | ULE | ULT | UGE | UGT.

(** Modelled from the spec: the class [smt::expr], which is not part of the
    sources at hand.  Section 6 of the specification lists the constructors
    that the memory model uses; one constructor stands for each, and no
    constructor simplifies its arguments. *)
Inductive expr : Type :=
| Null                                      (* expr(): the invalid handle *)
| BoolConst (b : bool)
| UInt (n : Z) (w : Z)                      (* mkUInt(n, w) *)
| Var (name : string) (w : Z)               (* mkVar(name, w) *)
| Array (name : string) (dom rng : Z)       (* mkArray(name, dom, rng) *)
| UF (name : string) (args : list expr) (rng : Z)
| If (c t e : expr)
| Lambda (var body : expr)
| Load (a i : expr)
| Store (a i v : expr)
| Concat (a b : expr)
| Extract (high low : Z) (a : expr)
| Zext (amount : Z) (a : expr)
| Sext (amount : Z) (a : expr)
| Add (a b : expr)
| Sub (a b : expr)
| BvOr (a b : expr)                         (* operator| on bit-vectors *)
| ToBVBool (a : expr)
| AddNoSOverflow (a b : expr)
| AddNoUOverflow (a b : expr)
| Cmp (op : Pred) (a b : expr)
| Not (a : expr)
| And (a b : expr)
| Or (a b : expr)
| Implies (a b : expr).

(** [expr::bits()]; on an array term, the width of its range. *)
Fixpoint bits (e : expr) : Z :=
  match e with
  | UInt _ w | Var _ w => w
  | Array _ _ r | UF _ _ r => r
  | If _ t _ => bits t
  | Lambda _ b => bits b
  | Load a _ | Store a _ _ => bits a
  | Concat a b => bits a + bits b
  | Extract h l _ => h - l + 1
  | Zext n a | Sext n a => bits a + n
  | Add a _ | Sub a _ | BvOr a _ => bits a
  | ToBVBool _ => 1
  | _ => 0
  end.

(** [mkUInt(n, w)] takes a [uint64_t] and yields the numeral of width [w]. *)
Definition mkUInt (n w : Z) : expr := UInt (wrap w (u64 n)) w.
Definition trunc (e : expr) (tobw : Z) : expr := Extract (tobw - 1) 0 e.
Definition zextOrTrunc (e : expr) (tobw : Z) : expr :=
  if bits e <? tobw then Zext (tobw - bits e) e else trunc e tobw.
Definition sextOrTrunc (e : expr) (tobw : Z) : expr :=
  if bits e <? tobw then Sext (tobw - bits e) e else trunc e tobw.

(** The comparisons of a term with a machine integer, [e == n], [e != n] and
    [e.ugt(n)]: the integer becomes a numeral of the width of the term. *)
Definition eq_u (e : expr) (n : Z) : expr := Cmp EQ e (mkUInt n (bits e)).
Definition ne_u (e : expr) (n : Z) : expr := Cmp NE e (mkUInt n (bits e)).
Definition ugt_u (e : expr) (n : Z) : expr := Cmp UGT e (mkUInt n (bits e)).

(** [expr::isUInt(n)]: the term is a numeral that fits 64 bits. *)
Definition isUInt (e : expr) : option Z :=
  match e with
  | UInt n w => if wrap w n <? 2 ^ 64 then Some (wrap w n) else None
  | _ => None
  end.

(** *** Models and the denotation of terms *)

(** An interpretation of the free symbols: bit-vector variables, array
    variables and uninterpreted functions. *)
Record model : Type := {
  var_val : string -> Z -> Z;
  array_val : string -> Z -> Z;
  uf_val : string -> list Z -> Z
}.

(** The model that sends the variable bound by a lambda to [v]. *)
Definition bind (M : model) (var : expr) (v : Z) : model :=
  match var with
  | Var x w =>
      {| var_val := fun y w' =>
           if (String.eqb y x && (w' =? w))%bool then v else var_val M y w';
         array_val := array_val M;
         uf_val := uf_val M |}
  | _ => M
  end.

Definition cmp_sem (op : Pred) (w x y : Z) : bool :=
  match op with
  | EQ => x =? y
  | NE => negb (x =? y)
  | ULE => x <=? y
  | ULT => x <? y
  | UGE => y <=? x
  | UGT => y <? x
  | SLE => signed w x <=? signed w y
  | SLT => signed w x <? signed w y
  | SGE => signed w y <=? signed w x
  | SGT => signed w y <? signed w x
  end.

(** The value of a bit-vector term, of a boolean term and of an array term.
    Every bit-vector value is kept on the width of its term. *)
Fixpoint evalBV (M : model) (e : expr) {struct e} : Z :=
  wrap (bits e)
    match e with
    | UInt n _ => n
    | Var x w => var_val M x w
    | UF f args _ => uf_val M f (map (evalBV M) args)
    | If c t e' => if evalB M c then evalBV M t else evalBV M e'
    | Load a i => evalA M a (evalBV M i)
    | Concat a b => Z.shiftl (evalBV M a) (bits b) + evalBV M b
    | Extract _ l a => Z.shiftr (evalBV M a) l
    | Zext _ a => evalBV M a
    | Sext _ a => signed (bits a) (evalBV M a)
    | Add a b => evalBV M a + evalBV M b
    | Sub a b => evalBV M a - evalBV M b
    | BvOr a b => Z.lor (evalBV M a) (evalBV M b)
    | ToBVBool a => if evalB M a then 1 else 0
    | _ => 0
    end
with evalB (M : model) (e : expr) {struct e} : bool :=
  match e with
  | BoolConst b => b
  | If c t e' => if evalB M c then evalB M t else evalB M e'
  | AddNoSOverflow a b =>
      let s := signed (bits a) (evalBV M a) + signed (bits a) (evalBV M b) in
      ((- 2 ^ (bits a - 1) <=? s) && (s <? 2 ^ (bits a - 1)))%bool
  | AddNoUOverflow a b => evalBV M a + evalBV M b <? 2 ^ bits a
  | Cmp op a b => cmp_sem op (bits a) (evalBV M a) (evalBV M b)
  | Not a => negb (evalB M a)
  | And a b => (evalB M a && evalB M b)%bool
  | Or a b => (evalB M a || evalB M b)%bool
  | Implies a b => implb (evalB M a) (evalB M b)
  | _ => false
  end
with evalA (M : model) (e : expr) {struct e} : Z -> Z :=
  match e with
  | Array x _ _ => array_val M x
  | If c t e' => if evalB M c then evalA M t else evalA M e'
  | Lambda var body => fun i => evalBV (bind M var i) body
  | Store a i v => fun j => if j =? evalBV M i then evalBV M v else evalA M a j
  | _ => fun _ => 0
  end.

End SMT.
Import SMT.

(** ** The verification state *)

(** Modelled from the spec: the class [State] of ir/state.h, which is not
    part of the sources at hand.  Section 2 describes it as a context that
    accumulates preconditions and undefined-behaviour conditions and knows
    whether it runs the source or the target function. *)
Record State : Type := {
  isSource : bool;
  precondition : list expr;
  undef_behavior : list expr
}.

Definition addPre (s : State) (e : expr) : State :=
  {| isSource := isSource s;
     precondition := precondition s ++ [e];
     undef_behavior := undef_behavior s |}.

Definition addUB (s : State) (e : expr) : State :=
  {| isSource := isSource s;
     precondition := precondition s;
     undef_behavior := undef_behavior s ++ [e] |}.

(** Modelled from the spec: [StateValue] of ir/state_value.h, a value and
    its non-poison flag. *)
Record StateValue : Type := { value : expr; non_poison : expr }.

(** [StateValue::both()]. *)
Definition both (v : StateValue) : expr := And (value v) (non_poison v).

(** Modelled from the spec: the interface of [Type] (ir/type.h) that
    [Memory] uses, as section 6 lists it: [to_bv], [from_bv] and [bits]. *)
Record Type_ : Type := {
  toBV : StateValue -> StateValue;
  fromBV : StateValue -> StateValue;
  type_bits : Z
}.

(** ** Pointers and the heap *)

(** [Pointer] holds a reference to its [Memory] and the term [p].  The
    reference is read for the widths, which are the same for every heap of a
    run, and for the state, which the functions below take as an argument. *)
Record Pointer : Type := { p : expr }.

(** [Memory].  The field [state] is the handle of the verification state the
    heap belongs to; the state itself is threaded through the operations. *)
Record Memory : Type := {
  state : nat;
  blocks_val : expr;
  last_bid : Z;
  last_idx_ptr : Z
}.

Section Layout.

(** The widths that ir/memory.h gives to [Memory], which is not part of the
    sources at hand: they are parameters here. *)
Variables bits_for_offset bits_for_local_bid bits_for_nonlocal_bid
  bits_size_t : Z.

(** [ilog2] of util/compiler.h, not part of the sources at hand either. *)
Variable ilog2 : Z -> Z.

Definition bits_for_bids : Z := bits_for_local_bid + bits_for_nonlocal_bid.
Definition total_bits : Z := bits_for_bids + bits_for_offset.

(** Pointer::Pointer(Memory&, var_name) *)
Definition Pointer_var (var_name : string) : Pointer :=
  {| p := Var var_name total_bits |}.

(** Pointer::Pointer(Memory&, unsigned bid, bool local) *)
Definition Pointer_bid (bid : Z) (local : bool) : Pointer :=
  let bid_expr :=
    if local then mkUInt (Z.shiftl (u64 bid) bits_for_nonlocal_bid) bits_for_bids
    else mkUInt bid bits_for_bids in
  {| p := Concat (mkUInt 0 bits_for_offset) bid_expr |}.

(** Pointer::Pointer(Memory&, offset, local_bid, nonlocal_bid) *)
Definition Pointer_fields (offset local_bid nonlocal_bid : expr) : Pointer :=
  {| p := Concat (Concat offset local_bid) nonlocal_bid |}.

(** The field projections. *)
Definition get_bid (ptr : Pointer) : expr :=
  Extract (bits_for_bids - 1) 0 (p ptr).

Definition get_local_bid (ptr : Pointer) : expr :=
  Extract (bits_for_bids - 1) bits_for_nonlocal_bid (p ptr).

Definition get_nonlocal_bid (ptr : Pointer) : expr :=
  Extract (bits_for_nonlocal_bid - 1) 0 (p ptr).

Definition get_offset (ptr : Pointer) : expr :=
  Extract (bits_for_bids + bits_for_offset - 1) bits_for_bids (p ptr).

(** Pointer::is_local: both fields are looked at, because of undef
    pointers. *)
Definition is_local (ptr : Pointer) : expr :=
  And (ne_u (get_local_bid ptr) 0) (eq_u (get_nonlocal_bid ptr) 0).

(** Memory::mkName *)
Definition mkName (str : string) (src : bool) : string :=
  (str ++ (if src then "_src" else "_tgt"))%string.

(** Pointer::get_address and Pointer::block_size; the name of the function
    of a local block depends on the run of the state. *)
Definition get_address (s : State) (ptr : Pointer) : expr :=
  let offset := sextOrTrunc (get_offset ptr) bits_size_t in
  let local_name := mkName "blks_addr" (isSource s) in
  Add offset
      (If (is_local ptr)
          (UF local_name [get_local_bid ptr] (bits offset))
          (UF "blks_addr" [get_nonlocal_bid ptr] (bits offset))).

Definition block_size (s : State) (ptr : Pointer) : expr :=
  let range := mkUInt 0 (bits_size_t - 1) in
  let local_name := mkName "blks_size" (isSource s) in
  Concat (mkUInt 0 1)
         (If (is_local ptr)
             (UF local_name [get_local_bid ptr] (bits range))
             (UF "blks_size" [get_nonlocal_bid ptr] (bits range))).

(** Pointer::operator+(const expr&) *)
Definition ptr_add (ptr : Pointer) (bytes : expr) : Pointer :=
  let off := trunc (Add (sextOrTrunc (get_offset ptr) bits_size_t)
                        (zextOrTrunc bytes bits_size_t)) bits_for_offset in
  {| p := Concat off (get_bid ptr) |}.

(** Pointer::operator+(unsigned) *)
Definition ptr_add_u (ptr : Pointer) (bytes : Z) : Pointer :=
  ptr_add ptr (mkUInt bytes bits_for_offset).

Definition add_no_overflow (ptr : Pointer) (offset : expr) : expr :=
  AddNoSOverflow (get_offset ptr) offset.

(** Pointer::operator== and operator!= *)
Definition ptr_eq (lhs rhs : Pointer) : expr :=
  And (Cmp EQ (get_bid lhs) (get_bid rhs))
      (Cmp EQ (get_offset lhs) (get_offset rhs)).

Definition ptr_ne (lhs rhs : Pointer) : expr := Not (ptr_eq lhs rhs).

(** DEFINE_CMP(op) *)
Definition ptr_cmp (op : Pred) (lhs rhs : Pointer) : StateValue :=
  {| value := Cmp op (get_offset lhs) (get_offset rhs);
     non_poison := Cmp EQ (get_bid lhs) (get_bid rhs) |}.

Definition inbounds (s : State) (ptr : Pointer) : expr :=
  Cmp ULE (sextOrTrunc (get_offset ptr) bits_size_t) (block_size s ptr).

(** Pointer::is_aligned *)
Definition is_aligned (s : State) (ptr : Pointer) (align : Z) : expr :=
  let bits := ilog2 align in
  if bits =? 0 then BoolConst true
  else eq_u (Extract (bits - 1) 0 (get_address s ptr)) 0.

(** Pointer::is_dereferenceable(const expr&, unsigned) *)
Definition is_dereferenceable (s : State) (ptr : Pointer) (bytes0 : expr)
    (align : Z) : State :=
  let block_sz := block_size s ptr in
  let offset := sextOrTrunc (get_offset ptr) bits_size_t in
  let bytes := zextOrTrunc bytes0 bits_size_t in
  let cond := Cmp ULE (Add offset bytes) block_sz in
  let cond := And cond (AddNoUOverflow offset bytes) in
  let cond := And cond (is_aligned s ptr align) in
  addUB s (Implies (ugt_u bytes 0) cond).

(** Pointer::is_dereferenceable(unsigned, unsigned) *)
Definition is_dereferenceable_u (s : State) (ptr : Pointer) (bytes align : Z)
    : State :=
  is_dereferenceable s ptr (mkUInt bytes bits_for_offset) align.

(** The static function [disjoint] and Pointer::is_disjoint. *)
Definition disjoint (begin1 len1 begin2 len2 : expr) : expr :=
  Or (Cmp UGE begin1 (Add begin2 len2)) (Cmp UGE begin2 (Add begin1 len1)).

Definition is_disjoint (s : State) (ptr : Pointer) (len1 : expr)
    (ptr2 : Pointer) (len2 : expr) : State :=
  addUB s (Or (Cmp NE (get_bid ptr) (get_bid ptr2))
              (disjoint (sextOrTrunc (get_offset ptr) bits_size_t)
                        (zextOrTrunc len1 bits_size_t)
                        (sextOrTrunc (get_offset ptr2) bits_size_t)
                        (zextOrTrunc len2 bits_size_t))).

(** *** Memory *)

(** The indices [0, 1, ..., n-1] a counting loop runs through. *)
Definition upto (n : Z) : list Z := map Z.of_nat (seq 0 (Z.to_nat n)).

(** [std::to_string] on an unsigned counter. *)
Definition to_string (n : Z) : string :=
  NilEmpty.string_of_uint (N.to_uint (Z.to_N n)).

Definition set_blocks_val (m : Memory) (bv : expr) : Memory :=
  {| state := state m; blocks_val := bv;
     last_bid := last_bid m; last_idx_ptr := last_idx_ptr m |}.

Definition mk_val_array (name : string) : expr :=
  let bits_bids := bits_for_local_bid + bits_for_nonlocal_bid in
  Array name (bits_bids + bits_for_offset) (8 + 1).

(** Memory::Memory(State&).  The assertion that closes the constructor ends
    the run when it fails. *)
Definition Memory_new (st : nat) : option Memory :=
  let blocks_val := mk_val_array "blks_val" in
  let idx := Pointer_var "#idx0" in
  let poison := mkUInt 0 9 in
  let val := If (is_local idx) poison (Load blocks_val (p idx)) in
  if bits_for_offset <=? bits_size_t then
    Some {| state := st; blocks_val := Lambda (p idx) val;
            last_bid := 0; last_idx_ptr := 0 |}
  else None.

(** Memory::mkInput *)
Definition mkInput (name : string) : expr * list expr :=
  let bits := bits_for_nonlocal_bid + bits_for_offset in
  let var := Var name bits in
  let offset := Extract (bits - 1) bits_for_nonlocal_bid var in
  let bid := Extract (bits_for_nonlocal_bid - 1) 0 var in
  let local_bid := mkUInt 0 bits_for_local_bid in
  (p (Pointer_fields offset local_bid bid), [var]).

(** Memory::alloc; [++last_bid] wraps as an [unsigned]. *)
Definition alloc (m : Memory) (s : State) (bytes : expr) (align : Z)
    (local : bool) : expr * Memory * State :=
  let m := {| state := state m; blocks_val := blocks_val m;
              last_bid := u32 (last_bid m + 1);
              last_idx_ptr := last_idx_ptr m |} in
  let ptr := Pointer_bid (last_bid m) local in
  let s := addPre s (is_aligned s ptr align) in
  let size := zextOrTrunc bytes bits_size_t in
  let s := addPre s (Cmp EQ (block_size s ptr) size) in
  (p ptr, m, s).

(** Memory::free does nothing. *)
Definition free (m : Memory) (ptr : expr) : Memory := m.

(** [n + 1] allocations of local blocks in a row; the result of the last
    one. *)
Fixpoint alloc_many (n : nat) (m : Memory) (s : State) (bytes : expr)
    (align : Z) : expr * Memory * State :=
  match n with
  | O => alloc m s bytes align true
  | S n' =>
      let '(_, m', s') := alloc m s bytes align true in
      alloc_many n' m' s' bytes align
  end.

(** One turn of the loop of [Memory::store]. *)
Definition store_byte (ptr : Pointer) (val : StateValue) (bv : expr) (i : Z)
    : expr :=
  let data := Extract ((i + 1) * 8 - 1) (i * 8) (value val) in
  Store bv (p (ptr_add_u ptr i)) (Concat (non_poison val) data).

(** Memory::store *)
Definition store (m : Memory) (s : State) (p0 : expr) (v : StateValue)
    (type : Type_) (align : Z) : Memory * State :=
  let val := toBV type v in
  let bits := SMT.bits (value val) in
  let bytes := divide_up bits 8 in
  let val := {| value := Zext (bytes * 8 - bits) (value val);
                non_poison := non_poison val |} in
  let ptr := {| p := p0 |} in
  let s := is_dereferenceable_u s ptr bytes align in
  (set_blocks_val m (fold_left (store_byte ptr val) (upto bytes) (blocks_val m)),
   s).

(** One turn of the loop of [Memory::load]; the accumulator is [val] and the
    flag [first]. *)
Definition load_byte (bv : expr) (ptr : Pointer) (acc : StateValue * bool)
    (i : Z) : StateValue * bool :=
  let (val, first) := acc in
  let ptr_i := p (ptr_add_u ptr i) in
  let pair := Load bv ptr_i in
  let v := Extract (8 - 1) 0 pair in
  let pb := Extract 8 8 pair in
  if first then ({| value := v; non_poison := pb |}, false)
  else ({| value := Concat v (value val);
           non_poison := BvOr pb (non_poison val) |}, false).

(** Memory::load *)
Definition load (m : Memory) (s : State) (p0 : expr) (type : Type_)
    (align : Z) : StateValue * State :=
  let bits := type_bits type in
  let bytes := divide_up bits 8 in
  let ptr := {| p := p0 |} in
  let s := is_dereferenceable_u s ptr bytes align in
  let val :=
    fst (fold_left (load_byte (blocks_val m) ptr) (upto bytes)
                   ({| value := Null; non_poison := Null |}, true)) in
  (fromBV type {| value := trunc (value val) bits;
                  non_poison := non_poison val |}, s).

(** The lambda of the general path of [Memory::memset]. *)
Definition memset_lambda (m : Memory) (ptr : Pointer) (store_val : expr)
    (bytes : expr) : Memory :=
  let name := ("#idx_" ++ to_string (last_idx_ptr m))%string in
  let idx := Pointer_var name in
  let cond := And (both (ptr_cmp UGE idx ptr))
                  (both (ptr_cmp ULT idx (ptr_add ptr bytes))) in
  let val := If cond store_val (Load (blocks_val m) (p idx)) in
  {| state := state m; blocks_val := Lambda (p idx) val;
     last_bid := last_bid m; last_idx_ptr := u32 (last_idx_ptr m + 1) |}.

(** Memory::memset *)
Definition memset (m : Memory) (s : State) (p0 : expr) (val : StateValue)
    (bytes : expr) (align : Z) : Memory * State :=
  let ptr := {| p := p0 |} in
  let s := is_dereferenceable s ptr bytes align in
  let store_val := Concat (ToBVBool (non_poison val)) (value val) in
  match isUInt bytes with
  | Some n =>
      if n <=? 4 then
        (set_blocks_val m
           (fold_left (fun bv i => Store bv (p (ptr_add_u ptr i)) store_val)
                      (upto n) (blocks_val m)), s)
      else (memset_lambda m ptr store_val bytes, s)
  | None => (memset_lambda m ptr store_val bytes, s)
  end.

(** One turn of the unrolled loop of [Memory::memcpy]: the byte is read from
    [old_val], the array captured before the loop. *)
Definition memcpy_byte (old_val : expr) (src dst : Pointer) (bv : expr)
    (i : Z) : expr :=
  let src_i := p (ptr_add_u src i) in
  let dst_i := p (ptr_add_u dst i) in
  Store bv dst_i (Load old_val src_i).

(** The lambda of the general path of [Memory::memcpy]. *)
Definition memcpy_lambda (m : Memory) (src dst : Pointer) (bytes : expr)
    : Memory :=
  let name := ("#idx_" ++ to_string (last_idx_ptr m))%string in
  (* dst.bits(): the width of the term of [dst] *)
  let dst_idx := {| p := Var name (bits (p dst)) |} in
  let src_idx :=
    ptr_add src (Sub (get_offset dst_idx) (get_offset dst)) in
  let cond := And (both (ptr_cmp UGE dst_idx dst))
                  (both (ptr_cmp ULT dst_idx (ptr_add dst bytes))) in
  let val := If cond (Load (blocks_val m) (p src_idx))
                (Load (blocks_val m) (p dst_idx)) in
  {| state := state m; blocks_val := Lambda (p dst_idx) val;
     last_bid := last_bid m; last_idx_ptr := u32 (last_idx_ptr m + 1) |}.

(** Memory::memcpy *)
Definition memcpy (m : Memory) (s : State) (d s0 : expr) (bytes : expr)
    (align_dst align_src : Z) (move : bool) : Memory * State :=
  let dst := {| p := d |} in
  let src := {| p := s0 |} in
  let s := is_dereferenceable s dst bytes align_dst in
  let s := is_dereferenceable s src bytes align_src in
  let s := if move then s else is_disjoint s src bytes dst bytes in
  match isUInt bytes with
  | Some n =>
      if n <=? 4 then
        let old_val := blocks_val m in
        (set_blocks_val m
           (fold_left (memcpy_byte old_val src dst) (upto n) (blocks_val m)),
         s)
      else (memcpy_lambda m src dst bytes, s)
  | None => (memcpy_lambda m src dst bytes, s)
  end.

(** Memory::ptr2int, and Memory::int2ptr, which returns the invalid term. *)
Definition ptr2int (s : State) (ptr : expr) : expr :=
  get_address s {| p := ptr |}.

Definition int2ptr (val : expr) : expr := Null.

(** Memory::mkIf.  The assertion on the two states ends the run when it
    fails. *)
Definition mkIf (cond : expr) (then_ els : Memory) : option Memory :=
  if Nat.eqb (state then_) (state els) then
    Some {| state := state then_;
            blocks_val := If cond (blocks_val then_) (blocks_val els);
            last_bid := Z.max (last_bid then_) (last_bid els);
            last_idx_ptr := Z.max (last_idx_ptr then_) (last_idx_ptr els) |}
  else None.

(** *** Readings of the terms in a model *)

(** The two fields of a pointer in a model. *)
Definition offset_val (M : model) (ptr : Pointer) : Z :=
  evalBV M (get_offset ptr).
Definition bid_val (M : model) (ptr : Pointer) : Z :=
  evalBV M (get_bid ptr).

(** The array term that a loop of stores builds: the cell [cell i] goes to
    the address [addr i], for the indices of [l] in turn. *)
Definition store_chain (addr cell : Z -> expr) (l : list Z) (bv : expr)
    : expr :=
  fold_left (fun bv i => Store bv (addr i) (cell i)) l bv.

(** The byte and the flag that [load] takes from the cell of index [i]. *)
Definition byte_at (M : model) (bv : expr) (ptr : Pointer) (i : Z) : Z :=
  evalBV M (Extract (8 - 1) 0 (Load bv (p (ptr_add_u ptr i)))).
Definition flag_at (M : model) (bv : expr) (ptr : Pointer) (i : Z) : Z :=
  evalBV M (Extract 8 8 (Load bv (p (ptr_add_u ptr i)))).

(** The number whose [i]-th least significant byte is [f i], for [i < n],
    and the bitwise or of [f 0], ..., [f (n-1)]. *)
Fixpoint le_sum (f : Z -> Z) (n : nat) : Z :=
  match n with
  | O => 0
  | S k => le_sum f k + f (Z.of_nat k) * 2 ^ (8 * Z.of_nat k)
  end.

Fixpoint or_all (f : Z -> Z) (n : nat) : Z :=
  match n with
  | O => 0
  | S k => Z.lor (f (Z.of_nat k)) (or_all f k)
  end.

(** The cell that [store] writes for the byte of index [i], and the value
    that [store] cuts into bytes: the bits of the value, zero-extended to a
    whole number of bytes. *)
Definition store_cell (val : StateValue) (i : Z) : expr :=
  Concat (non_poison val) (Extract ((i + 1) * 8 - 1) (i * 8) (value val)).

Definition widened (val : StateValue) : StateValue :=
  let bits := bits (value val) in
  {| value := Zext (divide_up bits 8 * 8 - bits) (value val);
     non_poison := non_poison val |}.

(** A term does not depend on the variable [var] in the model [M]: its
    value stays the same whatever the variable is bound to. *)
Definition ignores_var (M : model) (var e : expr) : Prop :=
  forall a,
    evalBV (bind M var a) e = evalBV M e
    /\ evalB (bind M var a) e = evalB M e
    /\ (forall j, evalA (bind M var a) e j = evalA M e j).

(** The index variable that the general paths of [memset] and [memcpy] bind
    in a heap. *)
Definition idx_name (m : Memory) : string :=
  ("#idx_" ++ to_string (last_idx_ptr m))%string.

(** The test of the general paths: the pointer [q] has the block id of
    [ptr] and an offset from that of [ptr] up to, and not counting, that of
    [ptr + bytes]. *)
Definition in_range (M : model) (q ptr : Pointer) (bytes : expr) : bool :=
  ((offset_val M ptr <=? offset_val M q) && (bid_val M q =? bid_val M ptr)
   && ((offset_val M q <? wrap bits_for_offset
                            (offset_val M ptr + evalBV M bytes))
       && (bid_val M q =? bid_val M ptr)))%bool.

(** * Properties *)

(** ** Arithmetic on wrapped values *)

Lemma pow2_pos (w : Z) : 0 <= w -> 0 < 2 ^ w.
Proof. intros; apply Z.pow_pos_nonneg; lia. Qed.

Lemma wrap_mod (w v : Z) : wrap w v = v mod 2 ^ w.
Proof.
  unfold wrap. destruct (Z.le_gt_cases 0 w) as [H|H].
  - apply Z.land_ones, H.
  - unfold Z.ones. rewrite Z.shiftl_1_l, Z.pow_neg_r by lia.
    rewrite Z.mod_0_r. apply Z.land_m1_r.
Qed.

Lemma wrap_range (w v : Z) : 0 <= w -> 0 <= wrap w v < 2 ^ w.
Proof. intros H; rewrite !wrap_mod; apply Z.mod_pos_bound, pow2_pos, H. Qed.

Lemma wrap_small (w v : Z) : 0 <= v < 2 ^ w -> wrap w v = v.
Proof. intros H; rewrite !wrap_mod; apply Z.mod_small, H. Qed.

Lemma wrap_wrap_le (a b v : Z) : 0 <= a <= b -> wrap a (wrap b v) = wrap a v.
Proof.
  intros H; rewrite !wrap_mod.
  replace b with (a + (b - a)) by lia.
  rewrite Z.pow_add_r by lia.
  pose proof (pow2_pos a) as Ha. pose proof (pow2_pos (b - a)) as Hb.
  rewrite Z.rem_mul_r by lia.
  rewrite (Z.mul_comm (2 ^ a)), Z.mod_add by lia.
  apply Z.mod_mod; lia.
Qed.

Lemma wrap_idem (w v : Z) : 0 <= w -> wrap w (wrap w v) = wrap w v.
Proof. intros; apply wrap_wrap_le; lia. Qed.

Lemma wrap_add_l (w a b : Z) : wrap w (wrap w a + b) = wrap w (a + b).
Proof. rewrite !wrap_mod; apply Zplus_mod_idemp_l. Qed.

Lemma wrap_add_r (w a b : Z) : wrap w (a + wrap w b) = wrap w (a + b).
Proof. rewrite !wrap_mod; apply Zplus_mod_idemp_r. Qed.

Lemma wrap_signed (w v : Z) : 0 <= w -> wrap w (signed w v) = wrap w v.
Proof.
  intros H; unfold signed.
  destruct (wrap w v <? 2 ^ (w - 1)).
  - apply wrap_idem, H.
  - rewrite !wrap_mod. pose proof (pow2_pos w H).
    replace (v mod 2 ^ w - 2 ^ w) with (v mod 2 ^ w + (-1) * 2 ^ w) by lia.
    rewrite Z.mod_add by lia. apply Z.mod_mod; lia.
Qed.

Lemma wrap_concat_high (wa wb x y : Z) :
  0 <= wa -> 0 <= wb -> 0 <= x < 2 ^ wa -> 0 <= y < 2 ^ wb ->
  wrap (wa + wb) (x * 2 ^ wb + y) = x * 2 ^ wb + y.
Proof.
  intros Ha Hb Hx Hy. apply wrap_small.
  rewrite Z.pow_add_r by lia. nia.
Qed.

Lemma concat_div (wb x y : Z) :
  0 <= wb -> 0 <= y < 2 ^ wb -> (x * 2 ^ wb + y) / 2 ^ wb = x.
Proof.
  intros Hb Hy. pose proof (pow2_pos wb Hb).
  rewrite Z.add_comm, Z.div_add by lia. rewrite Z.div_small; lia.
Qed.

Lemma concat_mod (wb x y : Z) :
  0 <= wb -> 0 <= y < 2 ^ wb -> wrap wb (x * 2 ^ wb + y) = y.
Proof.
  intros Hb Hy. pose proof (pow2_pos wb Hb). rewrite !wrap_mod.
  rewrite Z.add_comm, Z.mod_add by lia. apply Z.mod_small, Hy.
Qed.

(** ** The denotation of terms *)

Lemma evalBV_wrap (M : model) (e : expr) :
  0 <= bits e -> wrap (bits e) (evalBV M e) = evalBV M e.
Proof.
  intros H. destruct e; cbn [evalBV]; apply wrap_idem; exact H.
Qed.

Lemma evalBV_range (M : model) (e : expr) :
  0 <= bits e -> 0 <= evalBV M e < 2 ^ bits e.
Proof.
  intros H. rewrite <- evalBV_wrap by exact H. apply wrap_range, H.
Qed.

Lemma eval_UInt (M : model) (n w : Z) : evalBV M (UInt n w) = wrap w n.
Proof. reflexivity. Qed.

Lemma eval_mkUInt (M : model) (n w : Z) :
  0 <= w -> evalBV M (mkUInt n w) = wrap w (u64 n).
Proof.
  intros H. unfold mkUInt. rewrite eval_UInt. apply wrap_idem, H.
Qed.

Lemma eval_mkUInt_0 (M : model) (w : Z) : evalBV M (mkUInt 0 w) = 0.
Proof.
  unfold mkUInt. rewrite eval_UInt. unfold u64. rewrite !wrap_mod.
  now rewrite !Zmod_0_l.
Qed.

Lemma eval_Extract (M : model) (h l : Z) (e : expr) :
  0 <= l ->
  evalBV M (Extract h l e) = wrap (h - l + 1) (evalBV M e / 2 ^ l).
Proof.
  intros Hl. cbn [evalBV bits]. rewrite Z.shiftr_div_pow2 by exact Hl.
  reflexivity.
Qed.

Lemma eval_trunc (M : model) (e : expr) (w : Z) :
  evalBV M (trunc e w) = wrap w (evalBV M e).
Proof.
  unfold trunc. rewrite eval_Extract by lia. change (2 ^ 0) with 1.
  rewrite Z.div_1_r. f_equal. lia.
Qed.

Lemma eval_Concat (M : model) (a b : expr) :
  0 <= bits a -> 0 <= bits b ->
  evalBV M (Concat a b) = evalBV M a * 2 ^ bits b + evalBV M b.
Proof.
  intros Ha Hb. cbn [evalBV bits]. rewrite Z.shiftl_mul_pow2 by exact Hb.
  apply wrap_concat_high; auto using evalBV_range.
Qed.

Lemma eval_Add (M : model) (a b : expr) :
  evalBV M (Add a b) = wrap (bits a) (evalBV M a + evalBV M b).
Proof. reflexivity. Qed.

Lemma bits_zextOrTrunc (e : expr) (w : Z) : bits (zextOrTrunc e w) = w.
Proof.
  unfold zextOrTrunc, trunc. destruct (bits e <? w); cbn [bits]; lia.
Qed.

Lemma bits_sextOrTrunc (e : expr) (w : Z) : bits (sextOrTrunc e w) = w.
Proof.
  unfold sextOrTrunc, trunc. destruct (bits e <? w); cbn [bits]; lia.
Qed.

Lemma eval_zextOrTrunc (M : model) (e : expr) (w : Z) :
  evalBV M (zextOrTrunc e w) = wrap w (evalBV M e).
Proof.
  unfold zextOrTrunc.
  destruct (bits e <? w) eqn:E.
  - cbn [evalBV bits]. f_equal. lia.
  - apply eval_trunc.
Qed.

(** Sign extension or truncation keeps the value modulo the smaller width. *)
Lemma eval_sextOrTrunc_wrap (M : model) (e : expr) (w k : Z) :
  0 <= k -> k <= bits e -> k <= w ->
  wrap k (evalBV M (sextOrTrunc e w)) = wrap k (evalBV M e).
Proof.
  intros Hk He Hw. unfold sextOrTrunc.
  destruct (bits e <? w) eqn:E.
  - cbn [evalBV bits]. rewrite wrap_wrap_le by lia.
    rewrite <- (wrap_wrap_le k (bits e) (signed _ _)) by lia.
    rewrite wrap_signed by lia. apply wrap_wrap_le; lia.
  - rewrite eval_trunc. apply wrap_wrap_le; lia.
Qed.

(** ** Pointers *)

(** The invariants of the layout: the widths are positive and an offset fits
    a [size_t] (the assertion of the constructor of [Memory]). *)
Hypothesis offset_pos : 0 < bits_for_offset.
Hypothesis local_bid_pos : 0 < bits_for_local_bid.
Hypothesis nonlocal_bid_pos : 0 < bits_for_nonlocal_bid.
Hypothesis offset_le_size : bits_for_offset <= bits_size_t.

Lemma bits_get_bid (ptr : Pointer) : bits (get_bid ptr) = bits_for_bids.
Proof. unfold get_bid; cbn [bits]; lia. Qed.

Lemma bits_get_offset (ptr : Pointer) : bits (get_offset ptr) = bits_for_offset.
Proof. unfold get_offset; cbn [bits]; lia. Qed.

Lemma bids_pos : 0 < bits_for_bids.
Proof. unfold bits_for_bids; lia. Qed.

Lemma offset_val_range (M : model) (ptr : Pointer) :
  0 <= offset_val M ptr < 2 ^ bits_for_offset.
Proof.
  unfold offset_val. rewrite <- (bits_get_offset ptr).
  apply evalBV_range. rewrite bits_get_offset. lia.
Qed.

Lemma bid_val_range (M : model) (ptr : Pointer) :
  0 <= bid_val M ptr < 2 ^ bits_for_bids.
Proof.
  unfold bid_val. rewrite <- (bits_get_bid ptr).
  apply evalBV_range. rewrite bits_get_bid. pose proof bids_pos. lia.
Qed.

(** The term of a pointer built as [offset ++ bid] has these two fields. *)
Lemma fields_of_concat (M : model) (off bid : expr) :
  bits off = bits_for_offset -> bits bid = bits_for_bids ->
  offset_val M {| p := Concat off bid |} = evalBV M off /\
  bid_val M {| p := Concat off bid |} = evalBV M bid.
Proof.
  intros Ho Hb. pose proof bids_pos as Hp.
  assert (Hro := evalBV_range M off). assert (Hrb := evalBV_range M bid).
  rewrite Ho in Hro. rewrite Hb in Hrb.
  unfold offset_val, bid_val, get_offset, get_bid; cbn [p].
  rewrite !eval_Extract, eval_Concat by lia. rewrite Hb.
  split.
  - rewrite concat_div by lia.
    replace (bits_for_bids + bits_for_offset - 1 - bits_for_bids + 1)
      with bits_for_offset by lia.
    apply wrap_small; lia.
  - change (2 ^ 0) with 1. rewrite Z.div_1_r.
    replace (bits_for_bids - 1 - 0 + 1) with bits_for_bids by lia.
    apply concat_mod; lia.
Qed.

(** A pointer term of the full width is its two fields side by side. *)
Lemma eval_ptr_fields (M : model) (ptr : Pointer) :
  bits (p ptr) = total_bits ->
  evalBV M (p ptr) = offset_val M ptr * 2 ^ bits_for_bids + bid_val M ptr.
Proof.
  intros Hw. pose proof bids_pos as Hp.
  assert (Hr := evalBV_range M (p ptr)). rewrite Hw in Hr.
  unfold total_bits in Hr. rewrite Z.pow_add_r in Hr by lia.
  pose proof (pow2_pos bits_for_bids) as P1.
  pose proof (pow2_pos bits_for_offset) as P2.
  unfold offset_val, bid_val, get_offset, get_bid.
  rewrite !eval_Extract by lia. change (2 ^ 0) with 1. rewrite Z.div_1_r.
  replace (bits_for_bids + bits_for_offset - 1 - bits_for_bids + 1)
    with bits_for_offset by lia.
  replace (bits_for_bids - 1 - 0 + 1) with bits_for_bids by lia.
  rewrite (wrap_small bits_for_offset).
  - rewrite !wrap_mod. rewrite Z.mul_comm. apply Z.div_mod. lia.
  - split.
    + apply Z.div_pos; lia.
    + apply Z.div_lt_upper_bound; lia.
Qed.

(** The sum that [operator+] forms on [size_t] bits, cut to the offset. *)
Lemma offset_sum (M : model) (ptr : Pointer) (bytes : expr) :
  wrap bits_for_offset
    (evalBV M (sextOrTrunc (get_offset ptr) bits_size_t)
     + evalBV M (zextOrTrunc bytes bits_size_t)) =
  wrap bits_for_offset (offset_val M ptr + evalBV M bytes).
Proof.
  set (x := evalBV M (sextOrTrunc (get_offset ptr) bits_size_t)).
  set (y := evalBV M (zextOrTrunc bytes bits_size_t)).
  rewrite <- (wrap_add_l _ x), <- (wrap_add_r _ _ y).
  subst x y.
  rewrite eval_zextOrTrunc, wrap_wrap_le by lia.
  rewrite eval_sextOrTrunc_wrap by (rewrite ?bits_get_offset; lia).
  rewrite wrap_add_l, wrap_add_r. reflexivity.
Qed.

Lemma eval_ptr_add (M : model) (ptr : Pointer) (bytes : expr) :
  evalBV M (p (ptr_add ptr bytes)) =
  wrap bits_for_offset (offset_val M ptr + evalBV M bytes) * 2 ^ bits_for_bids
  + bid_val M ptr.
Proof.
  pose proof bids_pos as Hp.
  unfold ptr_add; cbn [p].
  rewrite eval_Concat; rewrite ?bits_get_bid; cbn [bits trunc]; try lia.
  f_equal. f_equal.
  rewrite eval_trunc, eval_Add, bits_sextOrTrunc.
  rewrite wrap_wrap_le by lia. apply offset_sum.
Qed.

Lemma fields_ptr_add (M : model) (ptr : Pointer) (bytes : expr) :
  offset_val M (ptr_add ptr bytes) =
    wrap bits_for_offset (offset_val M ptr + evalBV M bytes) /\
  bid_val M (ptr_add ptr bytes) = bid_val M ptr.
Proof.
  unfold ptr_add.
  destruct (fields_of_concat M
              (trunc (Add (sextOrTrunc (get_offset ptr) bits_size_t)
                          (zextOrTrunc bytes bits_size_t)) bits_for_offset)
              (get_bid ptr)) as [Ho Hb].
  - cbn [bits trunc]. lia.
  - apply bits_get_bid.
  - rewrite Ho, Hb. split; [|reflexivity].
    rewrite eval_trunc, eval_Add, bits_sextOrTrunc.
    rewrite wrap_wrap_le by lia. apply offset_sum.
Qed.

Lemma eval_ptr_add_sum (M : model) (ptr : Pointer) (a b c : expr) :
  wrap bits_for_offset (evalBV M c) =
    wrap bits_for_offset (evalBV M a + evalBV M b) ->
  evalBV M (p (ptr_add (ptr_add ptr a) b)) = evalBV M (p (ptr_add ptr c)).
Proof.
  intros Hc. rewrite !eval_ptr_add.
  destruct (fields_ptr_add M ptr a) as [-> ->].
  f_equal. f_equal.
  rewrite wrap_add_l, <- Z.add_assoc.
  rewrite <- wrap_add_r, <- Hc, wrap_add_r. reflexivity.
Qed.

Lemma u64_small (n : Z) : 0 <= n < 2 ^ 64 -> u64 n = n.
Proof. apply wrap_small. Qed.

(** C4. Adding a byte count to a pointer yields the term whose offset field
    is the truncation to the offset width of the sum of the sign-extended
    offset and the zero-extended count, and whose block id is unchanged.
    Hence adding zero gives back the pointer, and adding [a] and then [b]
    gives the pointer obtained by adding any count [c] that is [a + b]
    modulo two to the offset width; the sum term [a + b] is such a count as
    soon as it is at least as wide as the offset. *)
Theorem ptr_add_identity_assoc (M : model) (ptr : Pointer) (a b c : expr) :
  (p (ptr_add ptr a) =
     Concat (trunc (Add (sextOrTrunc (get_offset ptr) bits_size_t)
                        (zextOrTrunc a bits_size_t)) bits_for_offset)
            (get_bid ptr)
   /\ offset_val M (ptr_add ptr a) =
        wrap bits_for_offset
          (evalBV M (sextOrTrunc (get_offset ptr) bits_size_t)
           + evalBV M (zextOrTrunc a bits_size_t))
   /\ offset_val M (ptr_add ptr a) =
        wrap bits_for_offset (offset_val M ptr + evalBV M a)
   /\ bid_val M (ptr_add ptr a) = bid_val M ptr)
  /\ (offset_val M (ptr_add (ptr_add ptr a) b) =
        wrap bits_for_offset (offset_val M ptr + (evalBV M a + evalBV M b))
      /\ bid_val M (ptr_add (ptr_add ptr a) b) = bid_val M ptr)
  /\ (bits (p ptr) = total_bits ->
      forall w, evalBV M (p (ptr_add ptr (mkUInt 0 w))) = evalBV M (p ptr))
  /\ (wrap bits_for_offset (evalBV M c) =
        wrap bits_for_offset (evalBV M a + evalBV M b) ->
      evalBV M (p (ptr_add (ptr_add ptr a) b)) = evalBV M (p (ptr_add ptr c)))
  /\ (bits_for_offset <= bits a ->
      evalBV M (p (ptr_add (ptr_add ptr a) b)) =
      evalBV M (p (ptr_add ptr (Add a b)))).
Proof.
  destruct (fields_ptr_add M ptr a) as [Ho Hb].
  repeat split.
  - rewrite Ho. symmetry. apply offset_sum.
  - exact Ho.
  - exact Hb.
  - destruct (fields_ptr_add M (ptr_add ptr a) b) as [Ho' _].
    rewrite Ho', Ho, wrap_add_l, Z.add_assoc. reflexivity.
  - destruct (fields_ptr_add M (ptr_add ptr a) b) as [_ Hb'].
    rewrite Hb'. exact Hb.
  - intros Hw w. rewrite eval_ptr_add, eval_mkUInt_0, Z.add_0_r.
    rewrite wrap_small by apply offset_val_range.
    symmetry. apply eval_ptr_fields, Hw.
  - apply eval_ptr_add_sum.
  - intros Hw. apply eval_ptr_add_sum.
    rewrite eval_Add. apply wrap_wrap_le. lia.
Qed.

(** C10. The unsigned overload of the addition makes the count a numeral of
    the offset width first: adding [n] is adding [n] modulo two to the offset
    width, the offset field of the result is the old offset plus [n] modulo
    two to the offset width, and two counts that agree modulo two to the
    offset width give the same pointer. *)
Theorem ptr_add_u_modulo (M : model) (ptr : Pointer) (n : Z) :
  0 <= n < 2 ^ 32 ->
  ptr_add_u ptr n = ptr_add ptr (mkUInt n bits_for_offset)
  /\ bits (mkUInt n bits_for_offset) = bits_for_offset
  /\ ptr_add_u ptr n = ptr_add_u ptr (n mod 2 ^ bits_for_offset)
  /\ offset_val M (ptr_add_u ptr n) =
       (offset_val M ptr + n) mod 2 ^ bits_for_offset
  /\ bid_val M (ptr_add_u ptr n) = bid_val M ptr
  /\ (forall n', 0 <= n' < 2 ^ 32 ->
        n mod 2 ^ bits_for_offset = n' mod 2 ^ bits_for_offset ->
        ptr_add_u ptr n = ptr_add_u ptr n').
Proof.
  intros Hn.
  assert (Hu : forall k, 0 <= k < 2 ^ 32 ->
            wrap bits_for_offset (u64 k) = k mod 2 ^ bits_for_offset).
  { intros k Hk. rewrite u64_small; [apply wrap_mod|].
    change (2 ^ 32) with 4294967296 in Hk.
    change (2 ^ 64) with 18446744073709551616. lia. }
  assert (Hm : 0 <= n mod 2 ^ bits_for_offset < 2 ^ 32).
  { pose proof (pow2_pos bits_for_offset).
    pose proof (Z.mod_pos_bound n (2 ^ bits_for_offset)).
    pose proof (Z.mod_le n (2 ^ bits_for_offset)). lia. }
  repeat split.
  - unfold ptr_add_u, mkUInt. rewrite (Hu n Hn), (Hu _ Hm).
    rewrite Z.mod_mod; [reflexivity|]. pose proof (pow2_pos bits_for_offset). lia.
  - destruct (fields_ptr_add M ptr (mkUInt n bits_for_offset)) as [Ho _].
    unfold ptr_add_u. rewrite Ho, eval_mkUInt by lia.
    rewrite (Hu n Hn), <- !wrap_mod. apply wrap_add_r.
  - apply fields_ptr_add.
  - intros n' Hn' E. unfold ptr_add_u, mkUInt.
    rewrite (Hu n Hn), (Hu n' Hn'), E. reflexivity.
Qed.

(** ** Conditions handed to the state *)

Lemma size_nonneg : 0 <= bits_size_t.
Proof. lia. Qed.

(** The unsigned overload hands the count over as a numeral of the offset
    width. *)
Lemma is_dereferenceable_u_count (M : model) (s : State) (ptr : Pointer)
    (bytes align : Z) :
  0 <= bytes < 2 ^ 32 ->
  is_dereferenceable_u s ptr bytes align =
    is_dereferenceable s ptr (mkUInt bytes bits_for_offset) align
  /\ evalBV M (zextOrTrunc (mkUInt bytes bits_for_offset) bits_size_t) =
       bytes mod 2 ^ bits_for_offset.
Proof.
  intros Hb. split; [reflexivity|].
  rewrite eval_zextOrTrunc, eval_mkUInt by lia.
  rewrite u64_small.
  - rewrite <- wrap_mod. apply wrap_small.
    pose proof (wrap_range bits_for_offset bytes) as R.
    pose proof (Z.pow_le_mono_r 2 bits_for_offset bits_size_t) as P.
    lia.
  - change (2 ^ 32) with 4294967296 in Hb.
    change (2 ^ 64) with 18446744073709551616. lia.
Qed.

(** The condition of [is_dereferenceable] in a model: a positive count [n]
    gives [off + n <= block size], no unsigned overflow and an aligned
    address, with [off] the offset and [n] the count on [size_t] bits. *)
Lemma deref_cond_iff (M : model) (s : State) (ptr : Pointer) (bytes0 : expr)
    (align : Z) :
  let offset := sextOrTrunc (get_offset ptr) bits_size_t in
  let bytes := zextOrTrunc bytes0 bits_size_t in
  evalB M (Implies (ugt_u bytes 0)
             (And (And (Cmp ULE (Add offset bytes) (block_size s ptr))
                       (AddNoUOverflow offset bytes))
                  (is_aligned s ptr align))) = true <->
  (0 < evalBV M bytes ->
   evalBV M offset + evalBV M bytes <= evalBV M (block_size s ptr)
   /\ evalBV M offset + evalBV M bytes < 2 ^ bits_size_t
   /\ evalB M (is_aligned s ptr align) = true).
Proof.
  cbv zeta. pose proof size_nonneg as Hs.
  pose proof (evalBV_range M (sextOrTrunc (get_offset ptr) bits_size_t)) as R.
  rewrite bits_sextOrTrunc in R.
  unfold ugt_u. cbn [evalB cmp_sem].
  rewrite eval_mkUInt_0, eval_Add, bits_sextOrTrunc.
  split.
  - intros H Hn.
    assert (Hn' : (0 <? evalBV M (zextOrTrunc bytes0 bits_size_t)) = true)
      by (apply Z.ltb_lt, Hn).
    rewrite Hn' in H. cbn [implb] in H.
    apply andb_prop in H as [H Ha]. apply andb_prop in H as [Hle Hov].
    apply Z.leb_le in Hle. apply Z.ltb_lt in Hov.
    rewrite wrap_small in Hle by lia. auto.
  - intros H.
    destruct (0 <? evalBV M (zextOrTrunc bytes0 bits_size_t)) eqn:Hn;
      [|reflexivity].
    apply Z.ltb_lt in Hn. destruct (H Hn) as (Hle & Hov & Ha).
    cbn [implb]. rewrite Ha, wrap_small by lia.
    apply Z.leb_le in Hle. apply Z.ltb_lt in Hov. rewrite Hle, Hov. reflexivity.
Qed.

(** C5, amended. [is_dereferenceable] leaves the preconditions alone and
    adds one condition to the undefined-behaviour conditions of the state:
    the implication from "the count is positive" to the conjunction of
    "offset plus count is at most the block size", "the unsigned sum does
    not overflow" and "the pointer is aligned".  The count of the condition
    is the count as the check sees it, not the count asked for: in a model
    the condition holds exactly when a positive [n] gives
    [off + n <= block size], [off + n < 2 ^ bits_size_t] and an aligned
    address, where [off] is the offset sign-extended and [n] the count
    zero-extended or truncated to [size_t].  The overload for a machine
    integer [k] makes the numeral of the offset width from [k], so its
    condition is the one for [k mod 2 ^ bits_for_offset] bytes. *)
Theorem is_dereferenceable_one_ub (M : model) (s : State) (ptr : Pointer)
    (bytes0 : expr) (align : Z) :
  let s' := is_dereferenceable s ptr bytes0 align in
  let offset := sextOrTrunc (get_offset ptr) bits_size_t in
  let bytes := zextOrTrunc bytes0 bits_size_t in
  let cond :=
    Implies (ugt_u bytes 0)
      (And (And (Cmp ULE (Add offset bytes) (block_size s ptr))
                (AddNoUOverflow offset bytes))
           (is_aligned s ptr align)) in
  let off := evalBV M offset in
  let n := evalBV M bytes in
  undef_behavior s' = undef_behavior s ++ [cond]
  /\ precondition s' = precondition s
  /\ isSource s' = isSource s
  /\ n = wrap bits_size_t (evalBV M bytes0)
  /\ (evalB M cond = true <->
      (0 < n ->
       off + n <= evalBV M (block_size s ptr)
       /\ off + n < 2 ^ bits_size_t
       /\ evalB M (is_aligned s ptr align) = true))
  /\ (forall k, 0 <= k < 2 ^ 32 ->
      is_dereferenceable_u s ptr k align =
        is_dereferenceable s ptr (mkUInt k bits_for_offset) align
      /\ evalBV M (zextOrTrunc (mkUInt k bits_for_offset) bits_size_t) =
           k mod 2 ^ bits_for_offset)
  /\ (forall k, 0 <= k < 2 ^ 32 ->
      exists condk,
        undef_behavior (is_dereferenceable_u s ptr k align) =
          undef_behavior s ++ [condk]
        /\ precondition (is_dereferenceable_u s ptr k align) = precondition s
        /\ (evalB M condk = true <->
            (0 < k mod 2 ^ bits_for_offset ->
             off + k mod 2 ^ bits_for_offset <= evalBV M (block_size s ptr)
             /\ off + k mod 2 ^ bits_for_offset < 2 ^ bits_size_t
             /\ evalB M (is_aligned s ptr align) = true))).
Proof.
  cbv zeta.
  split; [reflexivity|]. split; [reflexivity|]. split; [reflexivity|].
  split; [apply eval_zextOrTrunc|].
  split; [apply deref_cond_iff|].
  split; [intros k Hk; apply is_dereferenceable_u_count, Hk|].
  intros k Hk. eexists. split; [reflexivity|]. split; [reflexivity|].
  pose proof (deref_cond_iff M s ptr (mkUInt k bits_for_offset) align) as G.
  cbv zeta in G.
  rewrite (proj2 (is_dereferenceable_u_count M s ptr k align Hk)) in G.
  exact G.
Qed.

(** The address of a pointer is a multiple of [2 ^ k] when [is_aligned] at
    an alignment of logarithm [k] holds. *)
Lemma is_aligned_sem (M : model) (s : State) (ptr : Pointer) (align k : Z) :
  ilog2 align = k -> 0 < k ->
  is_aligned s ptr align = eq_u (Extract (k - 1) 0 (get_address s ptr)) 0
  /\ (evalB M (is_aligned s ptr align) = true <->
      evalBV M (get_address s ptr) mod 2 ^ k = 0).
Proof.
  intros Hk Hpos. unfold is_aligned. rewrite Hk.
  destruct (k =? 0) eqn:E; [apply Z.eqb_eq in E; lia|].
  split; [reflexivity|].
  unfold eq_u. cbn [evalB cmp_sem]. rewrite eval_mkUInt_0, eval_Extract by lia.
  change (2 ^ 0) with 1. rewrite Z.div_1_r.
  replace (k - 1 - 0 + 1) with k by lia.
  rewrite !wrap_mod. apply Z.eqb_eq.
Qed.

(** ** Block ids *)

Lemma wrap_shift (wl wn b : Z) :
  0 <= wl -> 0 <= wn -> wrap (wl + wn) (b * 2 ^ wn) = wrap wl b * 2 ^ wn.
Proof.
  intros Hl Hn. rewrite !wrap_mod. rewrite Z.pow_add_r by lia.
  pose proof (pow2_pos wl Hl). pose proof (pow2_pos wn Hn).
  apply Z.mul_mod_distr_r; lia.
Qed.

Lemma u32_range (n : Z) : 0 <= u32 n < 2 ^ 32.
Proof. apply wrap_range; lia. Qed.

(** The fields of the pointer that the constructor builds for a local block
    id: the local field is the id on [bits_for_local_bid] bits and the
    non-local field is zero. *)
Lemma fields_Pointer_bid_local (M : model) (bid : Z) :
  bits_for_bids <= 64 -> 0 <= bid < 2 ^ 32 ->
  evalBV M (get_local_bid (Pointer_bid bid true)) = wrap bits_for_local_bid bid
  /\ evalBV M (get_nonlocal_bid (Pointer_bid bid true)) = 0
  /\ evalBV M (p (Pointer_bid bid true)) =
       wrap bits_for_local_bid bid * 2 ^ bits_for_nonlocal_bid.
Proof.
  intros H64 Hb. pose proof bids_pos as Hp.
  pose proof (pow2_pos bits_for_nonlocal_bid) as Pn.
  assert (Hu : u64 bid = bid).
  { apply u64_small. change (2 ^ 32) with 4294967296 in Hb.
    change (2 ^ 64) with 18446744073709551616. lia. }
  assert (He : evalBV M (p (Pointer_bid bid true)) =
               wrap bits_for_local_bid bid * 2 ^ bits_for_nonlocal_bid).
  { unfold Pointer_bid; cbn [p].
    rewrite eval_Concat by (cbn [bits mkUInt]; lia).
    rewrite eval_mkUInt_0, Z.mul_0_l, Z.add_0_l.
    rewrite eval_mkUInt by lia. unfold u64 at 1.
    rewrite wrap_wrap_le by lia.
    rewrite Hu, Z.shiftl_mul_pow2 by lia.
    apply wrap_shift; lia. }
  pose proof (wrap_range bits_for_local_bid bid) as R.
  unfold get_local_bid, get_nonlocal_bid.
  rewrite !eval_Extract by lia. rewrite He.
  split; [|split; [|reflexivity]].
  - rewrite Z.div_mul by lia.
    replace (bits_for_bids - 1 - bits_for_nonlocal_bid + 1)
      with bits_for_local_bid by (unfold bits_for_bids; lia).
    apply wrap_idem; lia.
  - change (2 ^ 0) with 1. rewrite Z.div_1_r.
    replace (bits_for_nonlocal_bid - 1 - 0 + 1) with bits_for_nonlocal_bid
      by lia.
    rewrite wrap_mod. apply Z.mod_mul. lia.
Qed.

(** The local and the non-local block id are the two halves of the block
    id. *)
Lemma local_nonlocal_of_bid (M : model) (ptr : Pointer) :
  evalBV M (get_local_bid ptr) = bid_val M ptr / 2 ^ bits_for_nonlocal_bid
  /\ evalBV M (get_nonlocal_bid ptr) =
       bid_val M ptr mod 2 ^ bits_for_nonlocal_bid.
Proof.
  pose proof (pow2_pos bits_for_nonlocal_bid) as Pn.
  pose proof (pow2_pos bits_for_local_bid) as Pl.
  unfold bid_val, get_bid, get_local_bid, get_nonlocal_bid.
  rewrite !eval_Extract by lia. rewrite !wrap_mod.
  change (2 ^ 0) with 1. rewrite !Z.div_1_r.
  replace (bits_for_bids - 1 - 0 + 1)
    with (bits_for_nonlocal_bid + bits_for_local_bid)
    by (unfold bits_for_bids; lia).
  replace (bits_for_bids - 1 - bits_for_nonlocal_bid + 1)
    with bits_for_local_bid by (unfold bits_for_bids; lia).
  replace (bits_for_nonlocal_bid - 1 - 0 + 1) with bits_for_nonlocal_bid
    by lia.
  rewrite Z.pow_add_r by lia.
  set (v := evalBV M (p ptr)).
  rewrite Z.rem_mul_r by lia.
  set (lo := v mod 2 ^ bits_for_nonlocal_bid).
  set (hi := (v / 2 ^ bits_for_nonlocal_bid) mod 2 ^ bits_for_local_bid).
  assert (Rlo : 0 <= lo < 2 ^ bits_for_nonlocal_bid)
    by (apply Z.mod_pos_bound; lia).
  replace (lo + 2 ^ bits_for_nonlocal_bid * hi)
    with (hi * 2 ^ bits_for_nonlocal_bid + lo) by lia.
  split.
  - rewrite concat_div by lia. reflexivity.
  - rewrite <- wrap_mod. rewrite concat_mod by lia. reflexivity.
Qed.

Lemma eval_is_local (M : model) (ptr : Pointer) :
  evalB M (is_local ptr) =
  (negb (evalBV M (get_local_bid ptr) =? 0)
   && (evalBV M (get_nonlocal_bid ptr) =? 0))%bool.
Proof.
  unfold is_local, ne_u, eq_u. cbn [evalB cmp_sem].
  rewrite !eval_mkUInt_0. reflexivity.
Qed.

(** The locality and the two block ids of the pointer that the constructor
    builds from a counter [c]: for a local block whose id is not zero on
    the width of the local field, and for a block that is not local whose
    id fits the non-local field. *)
Lemma is_local_Pointer_bid (M : model) (c : Z) (local : bool) :
  bits_for_bids <= 64 -> 0 <= c < 2 ^ 32 ->
  (if local then wrap bits_for_local_bid c <> 0
   else c < 2 ^ bits_for_nonlocal_bid) ->
  evalB M (is_local (Pointer_bid c local)) = local
  /\ evalBV M (get_local_bid (Pointer_bid c local)) =
       (if local then wrap bits_for_local_bid c else 0)
  /\ evalBV M (get_nonlocal_bid (Pointer_bid c local)) =
       (if local then 0 else c).
Proof.
  intros H64 Rc Hfit. destruct local.
  - destruct (fields_Pointer_bid_local M c H64 Rc) as (Hl & Hn & _).
    split; [|split; assumption].
    rewrite eval_is_local, Hl, Hn.
    apply Z.eqb_neq in Hfit. rewrite Hfit. reflexivity.
  - pose proof bids_pos as Hp.
    pose proof (pow2_pos bits_for_nonlocal_bid) as Pn.
    pose proof (pow2_pos bits_for_local_bid) as Pl.
    destruct (fields_of_concat M (mkUInt 0 bits_for_offset)
                (mkUInt c bits_for_bids) eq_refl eq_refl) as [_ Hb].
    change {| p := Concat (mkUInt 0 bits_for_offset)
                     (mkUInt c bits_for_bids) |}
      with (Pointer_bid c false) in Hb.
    rewrite eval_mkUInt in Hb by lia.
    rewrite u64_small in Hb
      by (change (2 ^ 32) with 4294967296 in Rc;
          change (2 ^ 64) with 18446744073709551616; lia).
    destruct (local_nonlocal_of_bid M (Pointer_bid c false)) as [El En].
    rewrite Hb in El, En.
    assert (E2 : 2 ^ bits_for_bids =
                 2 ^ bits_for_local_bid * 2 ^ bits_for_nonlocal_bid).
    { unfold bits_for_bids. apply Z.pow_add_r; lia. }
    assert (W : wrap bits_for_bids c = c) by (apply wrap_small; nia).
    rewrite W in El, En.
    rewrite Z.div_small in El by lia. rewrite Z.mod_small in En by lia.
    split; [|split; assumption].
    rewrite eval_is_local, El. reflexivity.
Qed.

(** C6, amended. [alloc] increments [last_bid], returns the term of the
    pointer that the constructor builds from the new counter, leaves the
    undefined-behaviour conditions alone and adds two preconditions:
    [is_aligned(align)] of that pointer, and the equation between its block
    size and the byte count zero-extended to [size_t].  For the alignment 8
    the first precondition says that the address is a multiple of 8.  The
    pointer has the offset zero.  It is the pointer of the block id and of
    the locality asked for as long as the counter fits the field: a local
    pointer whose local block id is the counter on the width of that field,
    when this is not zero, and a pointer that is not local whose non-local
    block id is the counter, when the counter is below two to the width of
    that field. *)
Theorem alloc_preconditions (M : model) (m : Memory) (s : State)
    (bytes : expr) (align : Z) (local : bool) :
  ilog2 8 = 3 ->
  let '(ptr, m', s') := alloc m s bytes align local in
  let ptr0 := Pointer_bid (u32 (last_bid m + 1)) local in
  last_bid m' = u32 (last_bid m + 1)
  /\ ptr = p ptr0
  /\ offset_val M ptr0 = 0
  /\ blocks_val m' = blocks_val m
  /\ undef_behavior s' = undef_behavior s
  /\ precondition s' =
       precondition s ++
         [is_aligned s ptr0 align;
          Cmp EQ (block_size s ptr0) (zextOrTrunc bytes bits_size_t)]
  /\ (evalB M (Cmp EQ (block_size s ptr0) (zextOrTrunc bytes bits_size_t))
       = true <->
      evalBV M (block_size s ptr0) = wrap bits_size_t (evalBV M bytes))
  /\ (align = 8 ->
      In (is_aligned s ptr0 8) (precondition s')
      /\ (evalB M (is_aligned s ptr0 8) = true <->
          evalBV M (get_address s ptr0) mod 8 = 0))
  /\ (bits_for_bids <= 64 ->
      (if local then wrap bits_for_local_bid (last_bid m') <> 0
       else last_bid m' < 2 ^ bits_for_nonlocal_bid) ->
      evalB M (is_local {| p := ptr |}) = local
      /\ evalBV M (get_local_bid {| p := ptr |}) =
           (if local then wrap bits_for_local_bid (last_bid m') else 0)
      /\ evalBV M (get_nonlocal_bid {| p := ptr |}) =
           (if local then 0 else last_bid m')).
Proof.
  intros Hlog. unfold alloc. cbn [last_bid blocks_val].
  split; [reflexivity|]. split; [reflexivity|]. split.
  { unfold Pointer_bid.
    assert (Hb : forall e, bits e = bits_for_bids ->
              offset_val M {| p := Concat (mkUInt 0 bits_for_offset) e |} = 0).
    { intros e He.
      destruct (fields_of_concat M (mkUInt 0 bits_for_offset) e) as [Ho _];
        [reflexivity|exact He|].
      rewrite Ho. apply eval_mkUInt_0. }
    destruct local; apply Hb; reflexivity. }
  split; [reflexivity|]. split; [reflexivity|]. split.
  { unfold addPre; cbn [precondition]. rewrite <- app_assoc. reflexivity. }
  split.
  { cbn [evalB cmp_sem]. rewrite eval_zextOrTrunc. apply Z.eqb_eq. }
  split.
  { intros ->. split.
    - unfold addPre; cbn [precondition].
      apply in_or_app; left. apply in_or_app; right. left. reflexivity.
    - apply (is_aligned_sem M s _ 8 3 Hlog). lia. }
  intros H64 Hfit.
  replace {| p := p (Pointer_bid (u32 (last_bid m + 1)) local) |}
    with (Pointer_bid (u32 (last_bid m + 1)) local)
    by (destruct (Pointer_bid (u32 (last_bid m + 1)) local); reflexivity).
  apply is_local_Pointer_bid; [exact H64|apply u32_range|exact Hfit].
Qed.

(** C9, amended. When the incremented counter is not a multiple of two to
    the width of the local block id, the pointer that [alloc] returns for a
    local block has the counter (on that width) as its local block id and
    zero as its non-local block id, so [is_local] holds of it; the first
    local block of a heap whose counter is zero has the id 1. *)
Theorem alloc_local_is_local (M : model) (m : Memory) (s : State)
    (bytes : expr) (align : Z) :
  bits_for_bids <= 64 ->
  wrap bits_for_local_bid (u32 (last_bid m + 1)) <> 0 ->
  let '(ptr, m', s') := alloc m s bytes align true in
  let ptr := {| p := ptr |} in
  evalBV M (get_local_bid ptr) = wrap bits_for_local_bid (last_bid m')
  /\ evalBV M (get_local_bid ptr) <> 0
  /\ evalBV M (get_nonlocal_bid ptr) = 0
  /\ evalB M (is_local ptr) = true
  /\ (last_bid m = 0 -> evalBV M (get_local_bid ptr) = 1).
Proof.
  intros H64 Hnz. unfold alloc. cbn [last_bid].
  destruct (fields_Pointer_bid_local M (u32 (last_bid m + 1)) H64
              (u32_range _)) as (Hl & Hn & _).
  set (q := Pointer_bid (u32 (last_bid m + 1)) true) in *.
  replace {| p := p q |} with q by (destruct q; reflexivity).
  split; [exact Hl|]. split; [rewrite Hl; exact Hnz|].
  split; [exact Hn|]. split.
  - unfold is_local, ne_u, eq_u. cbn [evalB cmp_sem].
    rewrite !eval_mkUInt_0, Hl, Hn.
    apply Z.eqb_neq in Hnz. rewrite Hnz. reflexivity.
  - intros H0. rewrite Hl, H0. change (u32 (0 + 1)) with 1. apply wrap_small.
    pose proof (Z.pow_le_mono_r 2 1 bits_for_local_bid). lia.
Qed.

(** ** Chains of stores *)

Lemma store_chain_snoc (addr cell : Z -> expr) (l : list Z) (i : Z)
    (bv : expr) :
  store_chain addr cell (l ++ [i]) bv =
  Store (store_chain addr cell l bv) (addr i) (cell i).
Proof. unfold store_chain. rewrite fold_left_app. reflexivity. Qed.

Lemma bits_store_chain (addr cell : Z -> expr) (l : list Z) (bv : expr) :
  bits (store_chain addr cell l bv) = bits bv.
Proof.
  revert bv. induction l as [|i l IH]; intros bv; [reflexivity|].
  cbn. unfold store_chain in IH. rewrite IH. reflexivity.
Qed.

(** An address that no store of the chain hits keeps its cell. *)
Lemma store_chain_other (M : model) (addr cell : Z -> expr) (l : list Z)
    (bv : expr) (a : Z) :
  (forall j, In j l -> evalBV M (addr j) <> a) ->
  evalA M (store_chain addr cell l bv) a = evalA M bv a.
Proof.
  induction l as [|i l IH] using rev_ind; intros H; [reflexivity|].
  rewrite store_chain_snoc. cbn [evalA].
  destruct (a =? evalBV M (addr i)) eqn:E.
  - apply Z.eqb_eq in E. exfalso. apply (H i); [|auto].
    apply in_or_app; right; left; reflexivity.
  - apply IH. intros j Hj. apply H. apply in_or_app; left; exact Hj.
Qed.

(** An address that the chain hits holds the cell stored there, provided
    the stores that hit the same address store the same value. *)
Lemma store_chain_hit (M : model) (addr cell : Z -> expr) (l : list Z)
    (bv : expr) (i : Z) :
  In i l ->
  (forall j, In j l -> evalBV M (addr j) = evalBV M (addr i) ->
             evalBV M (cell j) = evalBV M (cell i)) ->
  evalA M (store_chain addr cell l bv) (evalBV M (addr i)) = evalBV M (cell i).
Proof.
  induction l as [|k l IH] using rev_ind; intros Hi H; [destruct Hi|].
  rewrite store_chain_snoc. cbn [evalA].
  destruct (evalBV M (addr i) =? evalBV M (addr k)) eqn:E.
  - apply Z.eqb_eq in E. apply H; [|auto].
    apply in_or_app; right; left; reflexivity.
  - apply in_app_or in Hi as [Hi|[Hi|[]]].
    + apply IH; [exact Hi|]. intros j Hj. apply H.
      apply in_or_app; left; exact Hj.
    + subst k. rewrite Z.eqb_refl in E. discriminate.
Qed.

Lemma In_upto (n i : Z) : In i (upto n) <-> 0 <= i < n.
Proof.
  unfold upto. rewrite in_map_iff. split.
  - intros (k & <- & Hk). apply in_seq in Hk. lia.
  - intros H. exists (Z.to_nat i). split; [lia|]. apply in_seq. lia.
Qed.

(** Two pointers [ptr + x] and [ptr + y] with the same bits are apart by a
    multiple of two to the offset width, whatever [ptr] is. *)
Lemma ptr_add_u_same (M : model) (ptr ptr' : Pointer) (x y : Z) :
  evalBV M (p (ptr_add_u ptr x)) = evalBV M (p (ptr_add_u ptr y)) ->
  evalBV M (p (ptr_add_u ptr' x)) = evalBV M (p (ptr_add_u ptr' y)).
Proof.
  unfold ptr_add_u. rewrite !eval_ptr_add. intros H.
  pose proof bids_pos as Hp. pose proof (pow2_pos bits_for_bids) as P.
  assert (E : wrap bits_for_offset
                (offset_val M ptr + evalBV M (mkUInt x bits_for_offset)) =
              wrap bits_for_offset
                (offset_val M ptr + evalBV M (mkUInt y bits_for_offset)))
    by nia.
  f_equal. f_equal.
  set (a := evalBV M (mkUInt x bits_for_offset)) in *.
  set (b := evalBV M (mkUInt y bits_for_offset)) in *.
  replace (offset_val M ptr' + a)
    with ((offset_val M ptr' - offset_val M ptr) + (offset_val M ptr + a))
    by lia.
  replace (offset_val M ptr' + b)
    with ((offset_val M ptr' - offset_val M ptr) + (offset_val M ptr + b))
    by lia.
  rewrite <- wrap_add_r, E, wrap_add_r. reflexivity.
Qed.

(** ** The loops of load and store *)

Lemma upto_succ (k : nat) :
  upto (Z.of_nat (S k)) = upto (Z.of_nat k) ++ [Z.of_nat k].
Proof.
  unfold upto. rewrite !Nat2Z.id, seq_S, map_app. reflexivity.
Qed.

Lemma le_sum_range (f : Z -> Z) (n : nat) :
  (forall i, 0 <= f i < 2 ^ 8) -> 0 <= le_sum f n < 2 ^ (8 * Z.of_nat n).
Proof.
  intros Hf. induction n as [|k IH].
  - cbn. lia.
  - cbn [le_sum].
    replace (8 * Z.of_nat (S k)) with (8 + 8 * Z.of_nat k) by lia.
    rewrite Z.pow_add_r by lia.
    pose proof (Hf (Z.of_nat k)). pose proof (pow2_pos (8 * Z.of_nat k)).
    nia.
Qed.

Lemma bit_lor (a b : Z) : 0 <= a < 2 -> 0 <= b < 2 -> 0 <= Z.lor a b < 2.
Proof.
  intros Ha Hb.
  assert (A : a = 0 \/ a = 1) by lia. assert (B : b = 0 \/ b = 1) by lia.
  destruct A as [-> | ->], B as [-> | ->]; cbn; lia.
Qed.

Lemma byte_at_range (M : model) (bv : expr) (ptr : Pointer) (i : Z) :
  0 <= byte_at M bv ptr i < 2 ^ 8.
Proof.
  unfold byte_at. rewrite eval_Extract by lia. apply wrap_range. lia.
Qed.

Lemma flag_at_range (M : model) (bv : expr) (ptr : Pointer) (i : Z) :
  0 <= flag_at M bv ptr i < 2.
Proof.
  unfold flag_at. rewrite eval_Extract by lia. apply (wrap_range 1). lia.
Qed.

Lemma or_all_range (f : Z -> Z) (n : nat) :
  (forall i, 0 <= f i < 2) -> 0 <= or_all f n < 2.
Proof.
  intros Hf. induction n as [|k IH]; cbn [or_all]; [lia|].
  apply bit_lor; auto.
Qed.

(** What the loop of [load] has put together after [k + 1] turns: the bytes
    side by side, the byte of the lowest address last, and the bitwise or
    of the flags. *)
Lemma load_loop (M : model) (bv : expr) (ptr : Pointer) (k : nat) :
  let acc := fold_left (load_byte bv ptr) (upto (Z.of_nat (S k)))
               ({| value := Null; non_poison := Null |}, true) in
  snd acc = false
  /\ bits (value (fst acc)) = 8 * Z.of_nat (S k)
  /\ bits (non_poison (fst acc)) = 1
  /\ evalBV M (value (fst acc)) = le_sum (byte_at M bv ptr) (S k)
  /\ evalBV M (non_poison (fst acc)) = or_all (flag_at M bv ptr) (S k).
Proof.
  induction k as [|k IH].
  - change (upto (Z.of_nat 1)) with [0].
    cbn [fold_left load_byte fst snd value non_poison le_sum or_all].
    change (Z.of_nat 0) with 0.
    split; [reflexivity|]. split; [reflexivity|]. split; [reflexivity|].
    split.
    + unfold byte_at. change (2 ^ (8 * 0)) with 1. lia.
    + unfold flag_at. rewrite Z.lor_0_r. reflexivity.
  - rewrite upto_succ, fold_left_app.
    cbv zeta in IH.
    destruct (fold_left (load_byte bv ptr) (upto (Z.of_nat (S k)))
                ({| value := Null; non_poison := Null |}, true))
      as [val first].
    cbn [fst snd] in IH. destruct IH as (Hf & Hbv & Hbp & Hv & Hp).
    subst first. cbn [fold_left load_byte fst snd value non_poison].
    split; [reflexivity|].
    split; [cbn [bits]; rewrite Hbv; lia|].
    split; [reflexivity|].
    split.
    + rewrite eval_Concat by (cbn [bits]; lia).
      rewrite Hbv, Hv. cbn [le_sum]. unfold byte_at. lia.
    + change (or_all (flag_at M bv ptr) (S (S k)))
        with (Z.lor (flag_at M bv ptr (Z.of_nat (S k)))
                    (or_all (flag_at M bv ptr) (S k))).
      rewrite <- Hp.
      change (evalBV M (BvOr ?a ?b))
        with (wrap (bits a) (Z.lor (evalBV M a) (evalBV M b))).
      cbn [bits]. replace (8 - 8 + 1) with 1 by lia.
      apply wrap_small. change (2 ^ 1) with 2.
      apply bit_lor; [apply flag_at_range|].
      rewrite Hp. apply or_all_range. intros i. apply flag_at_range.
Qed.

Lemma le_sum_ext (f g : Z -> Z) (n : nat) :
  (forall i, 0 <= i < Z.of_nat n -> f i = g i) -> le_sum f n = le_sum g n.
Proof.
  induction n as [|k IH]; intros H; [reflexivity|].
  cbn [le_sum]. rewrite IH, (H (Z.of_nat k)) by (intros; try apply H; lia).
  reflexivity.
Qed.

Lemma or_all_ext (f g : Z -> Z) (n : nat) :
  (forall i, 0 <= i < Z.of_nat n -> f i = g i) -> or_all f n = or_all g n.
Proof.
  induction n as [|k IH]; intros H; [reflexivity|].
  cbn [or_all]. rewrite IH, (H (Z.of_nat k)) by (intros; try apply H; lia).
  reflexivity.
Qed.

(** The bytes of a number, put back together. *)
Lemma le_sum_bytes (V : Z) (n : nat) :
  le_sum (fun i => wrap 8 (V / 2 ^ (8 * i))) n = wrap (8 * Z.of_nat n) V.
Proof.
  induction n as [|k IH].
  - cbn. rewrite !wrap_mod. change (2 ^ 0) with 1. now rewrite Z.mod_1_r.
  - cbn [le_sum]. rewrite IH. rewrite !wrap_mod.
    replace (8 * Z.of_nat (S k)) with (8 * Z.of_nat k + 8) by lia.
    rewrite Z.pow_add_r by lia.
    pose proof (pow2_pos (8 * Z.of_nat k)).
    rewrite Z.rem_mul_r by lia. lia.
Qed.

Lemma or_all_const (x : Z) (n : nat) : or_all (fun _ => x) (S n) = x.
Proof.
  induction n as [|k IH]; cbn [or_all] in *.
  - apply Z.lor_0_r.
  - rewrite IH. apply Z.lor_diag.
Qed.

Lemma wrap_eq_small (w a b : Z) :
  0 <= w -> wrap w a = wrap w b -> Z.abs (a - b) < 2 ^ w -> a = b.
Proof.
  intros Hw E Hd. rewrite !wrap_mod in E. pose proof (pow2_pos w Hw) as P.
  pose proof (Z.div_mod a (2 ^ w)). pose proof (Z.div_mod b (2 ^ w)).
  assert (Hk : a - b = 2 ^ w * (a / 2 ^ w - b / 2 ^ w)) by lia.
  set (k := a / 2 ^ w - b / 2 ^ w) in Hk.
  assert (K : k <= -1 \/ k = 0 \/ 1 <= k) by lia.
  destruct K as [K | [K | K]]; [nia | rewrite K in Hk; lia | nia].
Qed.

(** Below two to the offset width, and below [2 ^ 64], different counts
    lead to different pointers. *)
Lemma ptr_add_u_inj (M : model) (ptr : Pointer) (i j : Z) :
  0 <= i < 2 ^ bits_for_offset -> 0 <= j < 2 ^ bits_for_offset ->
  i < 2 ^ 64 -> j < 2 ^ 64 ->
  evalBV M (p (ptr_add_u ptr i)) = evalBV M (p (ptr_add_u ptr j)) -> i = j.
Proof.
  intros Hi Hj Hi' Hj'. unfold ptr_add_u. rewrite !eval_ptr_add.
  rewrite !eval_mkUInt, !u64_small by lia.
  rewrite !wrap_add_r. intros E.
  pose proof bids_pos as Hp. pose proof (pow2_pos bits_for_bids) as P.
  assert (E' : wrap bits_for_offset (offset_val M ptr + i) =
               wrap bits_for_offset (offset_val M ptr + j)) by nia.
  apply wrap_eq_small in E'; lia.
Qed.

Lemma store_loop_chain (ptr : Pointer) (val : StateValue) (l : list Z)
    (bv : expr) :
  fold_left (store_byte ptr val) l bv =
  store_chain (fun i => p (ptr_add_u ptr i)) (store_cell val) l bv.
Proof. reflexivity. Qed.

(** The value of the cell of index [i]: the flag above the byte. *)
Lemma eval_store_cell (M : model) (val : StateValue) (i : Z) :
  bits (non_poison val) = 1 -> 0 <= i ->
  bits (store_cell val i) = 9
  /\ evalBV M (store_cell val i) =
       evalBV M (non_poison val) * 2 ^ 8
       + wrap 8 (evalBV M (value val) / 2 ^ (8 * i)).
Proof.
  intros Hnp Hi. unfold store_cell. split.
  - cbn [bits]. lia.
  - rewrite eval_Concat by (cbn [bits]; lia).
    rewrite eval_Extract by lia. cbn [bits].
    replace ((i + 1) * 8 - 1 - i * 8 + 1) with 8 by lia.
    replace (i * 8) with (8 * i) by lia. reflexivity.
Qed.

Lemma eval_widened (M : model) (val : StateValue) :
  0 <= bits (value val) ->
  evalBV M (value (widened val)) = evalBV M (value val).
Proof.
  intros Hb. unfold widened; cbn [value evalBV bits].
  pose proof (evalBV_range M (value val) Hb) as R.
  apply wrap_small. split; [lia|].
  eapply Z.lt_le_trans; [apply R|].
  apply Z.pow_le_mono_r; [lia|].
  unfold divide_up.
  pose proof (Z.div_mod (bits (value val) + 8 - 1) 8).
  pose proof (Z.mod_pos_bound (bits (value val) + 8 - 1) 8). lia.
Qed.

(** After the loop of [store], the cell that a load finds at [ptr + i] is
    the cell stored for the byte of index [i], as long as the bytes of the
    value have addresses of their own. *)
Lemma stored_cell (M : model) (ptr : Pointer) (val : StateValue)
    (bv : expr) (n i : Z) :
  bits bv = 9 -> bits (non_poison val) = 1 ->
  n <= 2 ^ bits_for_offset -> n <= 2 ^ 64 -> 0 <= i < n ->
  evalBV M (Load (fold_left (store_byte ptr val) (upto n) bv)
                 (p (ptr_add_u ptr i))) =
  evalBV M (store_cell val i).
Proof.
  intros Hbv Hnp Hn Hn' Hi. rewrite store_loop_chain.
  destruct (eval_store_cell M val i Hnp (proj1 Hi)) as [Hb _].
  cbn [evalBV bits]. rewrite bits_store_chain, Hbv.
  rewrite (store_chain_hit M (fun i => p (ptr_add_u ptr i)) (store_cell val)).
  - rewrite <- Hb. apply evalBV_wrap. lia.
  - apply In_upto, Hi.
  - intros j Hj E. apply In_upto in Hj.
    apply ptr_add_u_inj in E; [subst j; reflexivity|lia..].
Qed.

Lemma divide_up_8 (b : Z) :
  0 < b -> 1 <= divide_up b 8 /\ b <= 8 * divide_up b 8 < b + 8.
Proof.
  intros Hb. unfold divide_up.
  pose proof (Z.div_mod (b + 8 - 1) 8).
  pose proof (Z.mod_pos_bound (b + 8 - 1) 8). lia.
Qed.

(** What [load] reads back from the heap that [store] leaves. *)
Lemma load_loop_after_store (M : model) (ptr : Pointer) (val : StateValue)
    (bv : expr) (k : nat) :
  bits bv = 9 -> bits (non_poison val) = 1 ->
  Z.of_nat (S k) <= 2 ^ bits_for_offset -> Z.of_nat (S k) <= 2 ^ 64 ->
  let n := Z.of_nat (S k) in
  let bv' := fold_left (store_byte ptr val) (upto n) bv in
  let acc := fold_left (load_byte bv' ptr) (upto n)
               ({| value := Null; non_poison := Null |}, true) in
  bits (value (fst acc)) = 8 * n
  /\ bits (non_poison (fst acc)) = 1
  /\ evalBV M (value (fst acc)) = wrap (8 * n) (evalBV M (value val))
  /\ evalBV M (non_poison (fst acc)) = evalBV M (non_poison val).
Proof.
  intros Hbv Hnp Hn Hn'. cbv zeta.
  set (bv' := fold_left (store_byte ptr val) (upto (Z.of_nat (S k))) bv).
  destruct (load_loop M bv' ptr k) as (_ & Hb & Hbp & Hv & Hp).
  pose proof (evalBV_range M (non_poison val)) as Rnp.
  rewrite Hnp in Rnp. change (2 ^ 1) with 2 in Rnp.
  assert (Hcell : forall i, 0 <= i < Z.of_nat (S k) ->
            evalBV M (Load bv' (p (ptr_add_u ptr i))) =
            evalBV M (non_poison val) * 2 ^ 8
            + wrap 8 (evalBV M (value val) / 2 ^ (8 * i))).
  { intros i Hi. unfold bv'. rewrite stored_cell by assumption.
    apply eval_store_cell; [exact Hnp|lia]. }
  split; [exact Hb|]. split; [exact Hbp|]. split.
  - rewrite Hv, <- le_sum_bytes. apply le_sum_ext. intros i Hi.
    unfold byte_at. rewrite eval_Extract, (Hcell i Hi) by lia.
    change (2 ^ 0) with 1. rewrite Z.div_1_r.
    replace (8 - 1 - 0 + 1) with 8 by lia.
    apply concat_mod; [lia|]. apply wrap_range; lia.
  - rewrite Hp, <- (or_all_const (evalBV M (non_poison val)) k).
    apply or_all_ext. intros i Hi.
    unfold flag_at. rewrite eval_Extract, (Hcell i Hi) by lia.
    rewrite concat_div by (try apply wrap_range; lia).
    replace (8 - 8 + 1) with 1 by lia.
    apply wrap_small. change (2 ^ 1) with 2. lia.
Qed.

(** C1, amended. Let a type of at least one bit have at most two to the
    offset width bytes, and let the heap hold 9-bit cells.  The load of that
    type at the pointer of a store of that type yields, through [fromBV], a
    value that equals the stored bits of [toBV] of the value in every
    model, with the same non-poison flag. *)
Theorem load_after_store (M : model) (m : Memory) (s : State) (ptr : expr)
    (v : StateValue) (T : Type_) (align : Z) :
  bits (blocks_val m) = 9 ->
  bits (value (toBV T v)) = type_bits T ->
  bits (non_poison (toBV T v)) = 1 ->
  0 < type_bits T < 2 ^ 32 ->
  divide_up (type_bits T) 8 <= 2 ^ bits_for_offset ->
  let '(m', s') := store m s ptr v T align in
  exists val',
    fst (load m' s' ptr T align) = fromBV T val'
    /\ bits (value val') = type_bits T
    /\ bits (non_poison val') = 1
    /\ evalBV M (value val') = evalBV M (value (toBV T v))
    /\ evalBV M (non_poison val') = evalBV M (non_poison (toBV T v)).
Proof.
  intros Hbv Hb Hnp Hpos Hfit. unfold store, load.
  cbn [fst blocks_val set_blocks_val]. rewrite Hb.
  eexists. split; [reflexivity|]. cbn [value non_poison].
  destruct (divide_up_8 (type_bits T)) as (Hn1 & Hn2 & Hn3); [lia|].
  set (n := divide_up (type_bits T) 8) in *.
  assert (Hk : n = Z.of_nat (S (Z.to_nat (n - 1)))) by lia.
  change (2 ^ 32) with 4294967296 in Hpos.
  assert (H64 : n <= 2 ^ 64)
    by (change (2 ^ 64) with 18446744073709551616; lia).
  set (val := {| value := Zext (n * 8 - type_bits T) (value (toBV T v));
                 non_poison := non_poison (toBV T v) |}).
  assert (Hval : evalBV M (value val) = evalBV M (value (toBV T v))).
  { subst val n. rewrite <- Hb. apply (eval_widened M (toBV T v)). lia. }
  pose proof (load_loop_after_store M {| p := ptr |} val (blocks_val m)
                (Z.to_nat (n - 1)) Hbv Hnp) as L.
  rewrite <- Hk in L. cbv zeta in L.
  destruct (L Hfit H64) as (Lb & Lbp & Lv & Lp).
  split; [cbn [bits trunc]; lia|]. split; [exact Lbp|]. split.
  - rewrite eval_trunc, Lv, wrap_wrap_le by lia.
    rewrite Hval. rewrite <- Hb. apply evalBV_wrap. lia.
  - exact Lp.
Qed.

Lemma testbit_flag_byte (f d : Z) :
  0 <= f < 2 -> 0 <= d < 2 ^ 8 ->
  Z.testbit (f * 2 ^ 8 + d) 8 = (f =? 1).
Proof.
  intros Hf Hd.
  rewrite <- (Z.add_0_l 8) at 2. rewrite <- Z.div_pow2_bits by lia.
  rewrite concat_div by lia. rewrite Z.bit0_odd.
  assert (F : f = 0 \/ f = 1) by lia. destruct F as [-> | ->]; reflexivity.
Qed.

(** C3, amended. The cells that [store] and [memset] write are the
    non-poison flag above the byte: the top bit of a cell is 1 exactly when
    the flag of the stored value is 1, that is when the byte is not poison.
    [store] writes, for each index [i] below the number of bytes and in
    turn, the flag followed by the [i]-th least significant byte of the bits
    of the value at [ptr + i]; [memset] writes the flag followed by the byte
    at [ptr + i] when the length is a numeral of at most 4, and otherwise
    makes the array the lambda that yields that cell inside the range. *)
Theorem written_cells_layout (M : model) (m : Memory) (s : State)
    (ptr : expr) (v : StateValue) (T : Type_) (align : Z) (i : Z)
    (sv : StateValue) (bytes : expr) :
  let val := toBV T v in
  let cell := store_cell (widened val) i in
  let store_val := Concat (ToBVBool (non_poison sv)) (value sv) in
  (blocks_val (fst (store m s ptr v T align)) =
     store_chain (fun i => p (ptr_add_u {| p := ptr |} i))
                 (store_cell (widened val))
                 (upto (divide_up (bits (value val)) 8)) (blocks_val m)
   /\ (bits (non_poison val) = 1 -> 0 <= bits (value val) -> 0 <= i ->
       bits cell = 9
       /\ evalBV M cell =
            evalBV M (non_poison val) * 2 ^ 8
            + (evalBV M (value val) / 2 ^ (8 * i)) mod 2 ^ 8
       /\ Z.testbit (evalBV M cell) 8 = (evalBV M (non_poison val) =? 1)))
  /\ ((forall n, isUInt bytes = Some n -> n <= 4 ->
         blocks_val (fst (memset m s ptr sv bytes align)) =
         store_chain (fun i => p (ptr_add_u {| p := ptr |} i))
                     (fun _ => store_val) (upto n) (blocks_val m))
      /\ ((forall n, isUInt bytes = Some n -> 4 < n) ->
          fst (memset m s ptr sv bytes align) =
          memset_lambda m {| p := ptr |} store_val bytes)
      /\ (bits (value sv) = 8 ->
          bits store_val = 9
          /\ evalBV M store_val =
               (if evalB M (non_poison sv) then 1 else 0) * 2 ^ 8
               + evalBV M (value sv)
          /\ Z.testbit (evalBV M store_val) 8 = evalB M (non_poison sv))).
Proof.
  cbv zeta. split; [split|split; [|split]].
  - reflexivity.
  - intros Hnp Hb Hi.
    destruct (eval_store_cell M (widened (toBV T v)) i Hnp Hi) as [Hc He].
    rewrite eval_widened in He by exact Hb.
    split; [exact Hc|]. split; [rewrite <- wrap_mod; exact He|].
    rewrite He. apply testbit_flag_byte.
    + pose proof (evalBV_range M (non_poison (toBV T v))) as R.
      rewrite Hnp in R. change (2 ^ 1) with 2 in R. lia.
    + apply wrap_range. lia.
  - intros n Hn H4. unfold memset. rewrite Hn.
    apply Z.leb_le in H4. rewrite H4. reflexivity.
  - intros Hbig. unfold memset. destruct (isUInt bytes) as [n|]; [|reflexivity].
    specialize (Hbig n eq_refl).
    destruct (n <=? 4) eqn:E; [apply Z.leb_le in E; lia|reflexivity].
  - intros H8.
    assert (He : evalBV M (Concat (ToBVBool (non_poison sv)) (value sv)) =
                 (if evalB M (non_poison sv) then 1 else 0) * 2 ^ 8
                 + evalBV M (value sv)).
    { rewrite eval_Concat by (cbn [bits]; lia). rewrite H8.
      f_equal. f_equal. cbn [evalBV bits].
      destruct (evalB M (non_poison sv)); reflexivity. }
    split; [cbn [bits]; lia|]. split; [exact He|].
    rewrite He. pose proof (evalBV_range M (value sv)) as R. rewrite H8 in R.
    rewrite testbit_flag_byte by (destruct (evalB M (non_poison sv)); lia).
    destruct (evalB M (non_poison sv)); reflexivity.
Qed.

(** The flag that [load] returns is the bitwise or of the flags of the
    cells it reads. *)
Lemma load_flag_is_or (M : model) (m : Memory) (s : State) (ptr : expr)
    (T : Type_) (align : Z) (k : nat) :
  divide_up (type_bits T) 8 = Z.of_nat (S k) ->
  exists val,
    fst (load m s ptr T align) = fromBV T val
    /\ evalBV M (non_poison val) =
         or_all (flag_at M (blocks_val m) {| p := ptr |}) (S k).
Proof.
  intros Hn. unfold load. rewrite Hn. eexists. split; [reflexivity|].
  cbn [non_poison fst].
  apply (load_loop M (blocks_val m) {| p := ptr |} k).
Qed.

(** *** Values of more bytes than the offset can count *)

Lemma le_sum_low (f : Z -> Z) (k : nat) :
  (forall i, 0 <= f i < 2 ^ 8) -> wrap 8 (le_sum f (S k)) = f 0.
Proof.
  intros Hf. induction k as [|k IH].
  - cbn [le_sum]. change (Z.of_nat 0) with 0. change (2 ^ (8 * 0)) with 1.
    rewrite Z.add_0_l, Z.mul_1_r. apply wrap_small, Hf.
  - change (le_sum f (S (S k)))
      with (le_sum f (S k) + f (Z.of_nat (S k)) * 2 ^ (8 * Z.of_nat (S k))).
    replace (8 * Z.of_nat (S k)) with (8 * Z.of_nat k + 8) by lia.
    rewrite Z.pow_add_r, Z.mul_assoc by lia.
    rewrite ?wrap_mod in *. rewrite Z.mod_add by lia. exact IH.
Qed.

(** The last store of the loop of [store] wins at its address. *)
Lemma store_last_wins (M : model) (ptr : Pointer) (val : StateValue)
    (bv : expr) (k : nat) (i : Z) :
  bits bv = 9 -> bits (non_poison val) = 1 ->
  evalBV M (p (ptr_add_u ptr i)) = evalBV M (p (ptr_add_u ptr (Z.of_nat k))) ->
  evalBV M (Load (fold_left (store_byte ptr val) (upto (Z.of_nat (S k))) bv)
                 (p (ptr_add_u ptr i))) =
  evalBV M (store_cell val (Z.of_nat k)).
Proof.
  intros Hbv Hnp E. rewrite store_loop_chain, upto_succ, store_chain_snoc.
  destruct (eval_store_cell M val (Z.of_nat k) Hnp (Nat2Z.is_nonneg k))
    as [Hb _].
  cbn [evalBV evalA bits]. rewrite bits_store_chain, Hbv.
  rewrite E, Z.eqb_refl. rewrite <- Hb. apply evalBV_wrap. lia.
Qed.

(** When the last byte that [store] writes lands on the address of the
    first one, the load of the same type finds that last byte in the place
    of the first: the low byte of the loaded bits is the byte of index [k]
    of the stored bits. *)
Lemma load_after_store_low_byte (M : model) (m : Memory) (s s' : State)
    (ptr : expr) (v : StateValue) (T : Type_) (align : Z) (k : nat) :
  bits (blocks_val m) = 9 ->
  bits (value (toBV T v)) = type_bits T ->
  bits (non_poison (toBV T v)) = 1 ->
  8 <= type_bits T ->
  divide_up (type_bits T) 8 = Z.of_nat (S k) ->
  evalBV M (p (ptr_add_u {| p := ptr |} 0)) =
    evalBV M (p (ptr_add_u {| p := ptr |} (Z.of_nat k))) ->
  exists val,
    fst (load (fst (store m s ptr v T align)) s' ptr T align) = fromBV T val
    /\ wrap 8 (evalBV M (value val)) =
         wrap 8 (evalBV M (value (toBV T v)) / 2 ^ (8 * Z.of_nat k)).
Proof.
  intros Hbv Hb Hnp H8 Hn E. unfold store, load.
  cbn [fst blocks_val set_blocks_val]. rewrite Hb, Hn.
  eexists. split; [reflexivity|]. cbn [value].
  set (val := {| value := Zext (Z.of_nat (S k) * 8 - type_bits T)
                               (value (toBV T v));
                 non_poison := non_poison (toBV T v) |}).
  set (bv' := fold_left (store_byte {| p := ptr |} val)
                (upto (Z.of_nat (S k))) (blocks_val m)).
  destruct (load_loop M bv' {| p := ptr |} k) as (_ & _ & _ & Hv & _).
  rewrite eval_trunc, wrap_wrap_le, Hv by lia.
  rewrite le_sum_low by (intros; apply byte_at_range).
  unfold byte_at. rewrite eval_Extract by lia.
  change (2 ^ 0) with 1. rewrite Z.div_1_r.
  replace (8 - 1 - 0 + 1) with 8 by lia.
  unfold bv'. rewrite (store_last_wins M _ val _ k 0 Hbv Hnp E).
  destruct (eval_store_cell M val (Z.of_nat k) Hnp (Nat2Z.is_nonneg k))
    as [_ ->].
  assert (Hval : evalBV M (value val) = evalBV M (value (toBV T v))).
  { subst val. rewrite <- Hn, <- Hb. apply (eval_widened M (toBV T v)). lia. }
  rewrite Hval.
  rewrite concat_mod by (try apply wrap_range; lia).
  reflexivity.
Qed.

(** The states that the operations leave do not depend on the arrays. *)
Lemma state_after_store (m : Memory) (s : State) (ptr : expr)
    (v : StateValue) (T : Type_) (align : Z) :
  snd (store m s ptr v T align) =
  is_dereferenceable_u s {| p := ptr |}
    (divide_up (bits (value (toBV T v))) 8) align.
Proof. reflexivity. Qed.

Lemma state_after_load (m : Memory) (s : State) (ptr : expr) (T : Type_)
    (align : Z) :
  snd (load m s ptr T align) =
  is_dereferenceable_u s {| p := ptr |} (divide_up (type_bits T) 8) align.
Proof. reflexivity. Qed.

(** ** memcpy and the merge of heaps *)

(** C7. When the length of a [memcpy] is a numeral [n] of at most 4, the new
    array is the old one under [n] stores, one per byte, no index variable
    is made, and the byte stored at [dst + i] is the load of [src + i] from
    the array held before the first store.  So after the copy the cell at
    [dst + i] is the cell the old heap had at [src + i], for every [i] below
    [n] and whether the ranges overlap or not, and the other cells are
    those of the old heap. *)
Theorem memcpy_small_unrolled (M : model) (m : Memory) (s : State)
    (d s0 bytes : expr) (align_dst align_src : Z) (move : bool) (n : Z) :
  isUInt bytes = Some n -> n <= 4 ->
  let dst := {| p := d |} in
  let src := {| p := s0 |} in
  let m' := fst (memcpy m s d s0 bytes align_dst align_src move) in
  blocks_val m' =
    store_chain (fun i => p (ptr_add_u dst i))
                (fun i => Load (blocks_val m) (p (ptr_add_u src i)))
                (upto n) (blocks_val m)
  /\ List.length (upto n) = Z.to_nat n
  /\ last_idx_ptr m' = last_idx_ptr m
  /\ (forall i, 0 <= i < n ->
        evalA M (blocks_val m') (evalBV M (p (ptr_add_u dst i))) =
        evalBV M (Load (blocks_val m) (p (ptr_add_u src i))))
  /\ (forall a, (forall i, 0 <= i < n ->
                   evalBV M (p (ptr_add_u dst i)) <> a) ->
        evalA M (blocks_val m') a = evalA M (blocks_val m) a).
Proof.
  intros Hn H4. cbv zeta.
  assert (E : fst (memcpy m s d s0 bytes align_dst align_src move) =
              set_blocks_val m
                (store_chain (fun i => p (ptr_add_u {| p := d |} i))
                   (fun i => Load (blocks_val m)
                                  (p (ptr_add_u {| p := s0 |} i)))
                   (upto n) (blocks_val m))).
  { unfold memcpy. rewrite Hn.
    apply Z.leb_le in H4. rewrite H4. reflexivity. }
  rewrite E. cbn [blocks_val last_idx_ptr set_blocks_val].
  split; [reflexivity|].
  split; [unfold upto; rewrite length_map, length_seq; reflexivity|].
  split; [reflexivity|]. split.
  - intros i Hi.
    apply (store_chain_hit M (fun i => p (ptr_add_u {| p := d |} i))
             (fun i => Load (blocks_val m) (p (ptr_add_u {| p := s0 |} i)))).
    + apply In_upto, Hi.
    + intros j _ Hj. cbn [evalBV].
      rewrite (ptr_add_u_same M _ {| p := s0 |} j i Hj). reflexivity.
  - intros a Ha. apply store_chain_other.
    intros j Hj. apply Ha, In_upto, Hj.
Qed.

(** C8. For two heaps of the same state, merging [a] and [b] under the
    negation of a condition and merging [b] and [a] under the condition give
    heaps with the same state, the same counters (the maxima of the
    counters of [a] and [b]) and arrays, [ite(not c, a, b)] and
    [ite(c, b, a)], that hold the same cells in every model. *)
Theorem mkIf_negation (M : model) (c : expr) (a b : Memory) :
  state a = state b ->
  exists x y,
    mkIf (Not c) a b = Some x /\ mkIf c b a = Some y
    /\ blocks_val x = If (Not c) (blocks_val a) (blocks_val b)
    /\ blocks_val y = If c (blocks_val b) (blocks_val a)
    /\ last_bid x = Z.max (last_bid a) (last_bid b)
    /\ last_idx_ptr x = Z.max (last_idx_ptr a) (last_idx_ptr b)
    /\ state x = state y
    /\ last_bid x = last_bid y
    /\ last_idx_ptr x = last_idx_ptr y
    /\ (forall i, evalA M (blocks_val x) i = evalA M (blocks_val y) i).
Proof.
  intros Hs. unfold mkIf. rewrite Hs, Nat.eqb_refl.
  eexists; eexists. split; [reflexivity|]. split; [reflexivity|].
  cbn [blocks_val last_bid last_idx_ptr state].
  repeat split; try apply Z.max_comm.
  intros i. cbn [evalA evalB]. destruct (evalB M c); reflexivity.
Qed.

(** * Further properties of the code *)

(** ** The fields of a pointer *)

Lemma eval_Pointer_fields (M : model) (o l n : expr) :
  bits o = bits_for_offset -> bits l = bits_for_local_bid ->
  bits n = bits_for_nonlocal_bid ->
  evalBV M (p (Pointer_fields o l n)) =
  evalBV M o * 2 ^ bits_for_bids
  + (evalBV M l * 2 ^ bits_for_nonlocal_bid + evalBV M n).
Proof.
  intros Ho Hl Hn. unfold Pointer_fields; cbn [p].
  rewrite !eval_Concat by (cbn [bits]; lia).
  rewrite Hl, Hn. unfold bits_for_bids. rewrite Z.pow_add_r by lia. ring.
Qed.

(** The projections of a pointer built from its three fields. *)
Lemma fields_of_Pointer_fields (M : model) (offset local_bid nonlocal_bid : expr) :
  bits offset = bits_for_offset ->
  bits local_bid = bits_for_local_bid ->
  bits nonlocal_bid = bits_for_nonlocal_bid ->
  let q := Pointer_fields offset local_bid nonlocal_bid in
  bits (p q) = total_bits
  /\ evalBV M (get_offset q) = evalBV M offset
  /\ evalBV M (get_local_bid q) = evalBV M local_bid
  /\ evalBV M (get_nonlocal_bid q) = evalBV M nonlocal_bid.
Proof.
  pose proof (pow2_pos bits_for_nonlocal_bid) as Pn.
  pose proof (pow2_pos bits_for_local_bid) as Pl.
  pose proof bids_pos as Hp.
  intros Ho Hl Hn. cbv zeta.
  pose proof (evalBV_range M local_bid) as Rl. rewrite Hl in Rl.
  pose proof (evalBV_range M nonlocal_bid) as Rn. rewrite Hn in Rn.
  pose proof (evalBV_range M offset) as Ro. rewrite Ho in Ro.
  set (q := Pointer_fields offset local_bid nonlocal_bid).
  assert (Hw : bits (p q) = total_bits).
  { unfold q, Pointer_fields, total_bits, bits_for_bids; cbn [p bits].
    lia. }
  assert (Hb : evalBV M local_bid * 2 ^ bits_for_nonlocal_bid
               + evalBV M nonlocal_bid < 2 ^ bits_for_bids).
  { unfold bits_for_bids. rewrite Z.pow_add_r by lia. nia. }
  assert (Hb0 : 0 <= evalBV M local_bid * 2 ^ bits_for_nonlocal_bid
                     + evalBV M nonlocal_bid) by nia.
  pose proof (eval_ptr_fields M q Hw) as E.
  unfold q in E at 1. rewrite (eval_Pointer_fields M _ _ _ Ho Hl Hn) in E.
  pose proof (offset_val_range M q) as Roq.
  pose proof (bid_val_range M q) as Rbq.
  assert (Dx := concat_div bits_for_bids (evalBV M offset) _
                  ltac:(lia) (conj Hb0 Hb)).
  assert (Dy := concat_div bits_for_bids (offset_val M q) (bid_val M q)
                  ltac:(lia) ltac:(lia)).
  assert (Mx := concat_mod bits_for_bids (evalBV M offset) _
                  ltac:(lia) (conj Hb0 Hb)).
  assert (My := concat_mod bits_for_bids (offset_val M q) (bid_val M q)
                  ltac:(lia) ltac:(lia)).
  rewrite E in Dx, Mx.
  assert (Eo : offset_val M q = evalBV M offset) by congruence.
  assert (Eb : bid_val M q =
               evalBV M local_bid * 2 ^ bits_for_nonlocal_bid
               + evalBV M nonlocal_bid) by congruence.
  destruct (local_nonlocal_of_bid M q) as [El En].
  split; [exact Hw|]. split; [exact Eo|]. split.
  - rewrite El, Eb. apply concat_div; lia.
  - rewrite En, Eb, <- wrap_mod. apply concat_mod; lia.
Qed.

(** X1. The three fields of a pointer put together by the constructor from
    fields are read back by the projections, and a pointer term of the full
    width is rebuilt from its own three fields. *)
Theorem Pointer_fields_round_trip (M : model) (ptr : Pointer)
    (offset local_bid nonlocal_bid : expr) :
  (bits offset = bits_for_offset ->
   bits local_bid = bits_for_local_bid ->
   bits nonlocal_bid = bits_for_nonlocal_bid ->
   let q := Pointer_fields offset local_bid nonlocal_bid in
   bits (p q) = total_bits
   /\ evalBV M (get_offset q) = evalBV M offset
   /\ evalBV M (get_local_bid q) = evalBV M local_bid
   /\ evalBV M (get_nonlocal_bid q) = evalBV M nonlocal_bid)
  /\ (bits (p ptr) = total_bits ->
      evalBV M (p (Pointer_fields (get_offset ptr) (get_local_bid ptr)
                                  (get_nonlocal_bid ptr))) =
      evalBV M (p ptr)).
Proof.
  pose proof (pow2_pos bits_for_nonlocal_bid) as Pn.
  split; [apply fields_of_Pointer_fields|].
  intros Hw. rewrite eval_Pointer_fields.
  - rewrite (eval_ptr_fields M ptr Hw).
    destruct (local_nonlocal_of_bid M ptr) as [-> ->].
    fold (offset_val M ptr).
    pose proof (Z.div_mod (bid_val M ptr) (2 ^ bits_for_nonlocal_bid)).
    lia.
  - apply bits_get_offset.
  - unfold get_local_bid, bits_for_bids; cbn [bits]. lia.
  - unfold get_nonlocal_bid; cbn [bits]. lia.
Qed.

(** Adding a byte count keeps the two block ids and the answer of
    [is_local]. *)
Lemma is_local_ptr_add (M : model) (ptr : Pointer) (bytes : expr) :
  evalBV M (get_local_bid (ptr_add ptr bytes)) = evalBV M (get_local_bid ptr)
  /\ evalBV M (get_nonlocal_bid (ptr_add ptr bytes)) =
       evalBV M (get_nonlocal_bid ptr)
  /\ evalB M (is_local (ptr_add ptr bytes)) = evalB M (is_local ptr).
Proof.
  destruct (fields_ptr_add M ptr bytes) as [_ Hb].
  destruct (local_nonlocal_of_bid M (ptr_add ptr bytes)) as [El En].
  destruct (local_nonlocal_of_bid M ptr) as [El' En'].
  rewrite Hb in El, En.
  assert (L : evalBV M (get_local_bid (ptr_add ptr bytes)) =
              evalBV M (get_local_bid ptr)) by congruence.
  assert (N : evalBV M (get_nonlocal_bid (ptr_add ptr bytes)) =
              evalBV M (get_nonlocal_bid ptr)) by congruence.
  split; [exact L|]. split; [exact N|].
  rewrite !eval_is_local, L, N. reflexivity.
Qed.

(** X2. Whether a pointer is local depends on its block id alone: adding a
    byte count to a pointer does not change the answer of [is_local], and
    the pointer whose term is zero, the null pointer, is not local. *)
Theorem is_local_stable (M : model) (ptr : Pointer) (bytes : expr) :
  evalB M (is_local (ptr_add ptr bytes)) = evalB M (is_local ptr)
  /\ evalBV M (get_local_bid (ptr_add ptr bytes)) =
       evalBV M (get_local_bid ptr)
  /\ evalBV M (get_nonlocal_bid (ptr_add ptr bytes)) =
       evalBV M (get_nonlocal_bid ptr)
  /\ (evalBV M (p ptr) = 0 -> evalB M (is_local ptr) = false).
Proof.
  destruct (is_local_ptr_add M ptr bytes) as (L & N & I).
  split; [exact I|]. split; [exact L|]. split; [exact N|].
  destruct (local_nonlocal_of_bid M ptr) as [El' En'].
  intros H0. rewrite eval_is_local, El'.
  unfold bid_val, get_bid. rewrite eval_Extract, H0 by lia.
  change (2 ^ 0) with 1. rewrite Z.div_1_r.
  rewrite wrap_mod, Z.mod_0_l, Z.div_0_l; [reflexivity| |];
    pose proof (pow2_pos bits_for_nonlocal_bid);
    pose proof (pow2_pos (bits_for_bids - 1 - 0 + 1));
    pose proof bids_pos; lia.
Qed.

(** X3. [operator==] holds exactly when the two block ids and the two
    offsets are equal, which for pointer terms of the full width means that
    they have the same bits; [operator!=] is its negation, and a pointer is
    equal to itself. *)
Theorem ptr_eq_same_bits (M : model) (x y : Pointer) :
  (evalB M (ptr_eq x y) = true <->
   bid_val M x = bid_val M y /\ offset_val M x = offset_val M y)
  /\ (bits (p x) = total_bits -> bits (p y) = total_bits ->
      (evalB M (ptr_eq x y) = true <-> evalBV M (p x) = evalBV M (p y)))
  /\ evalB M (ptr_ne x y) = negb (evalB M (ptr_eq x y))
  /\ evalB M (ptr_eq x x) = true.
Proof.
  assert (E : evalB M (ptr_eq x y) = true <->
              bid_val M x = bid_val M y /\ offset_val M x = offset_val M y).
  { unfold ptr_eq. cbn [evalB cmp_sem]. rewrite andb_true_iff, !Z.eqb_eq.
    reflexivity. }
  split; [exact E|]. split; [|split; [reflexivity|]].
  - intros Hx Hy. rewrite E, (eval_ptr_fields M x Hx), (eval_ptr_fields M y Hy).
    pose proof (bid_val_range M x). pose proof (bid_val_range M y).
    pose proof (offset_val_range M x). pose proof (offset_val_range M y).
    pose proof bids_pos. pose proof (pow2_pos bits_for_bids).
    split; [intros [-> ->]; reflexivity|]. intros Heq.
    assert (Dx := concat_div bits_for_bids (offset_val M x) (bid_val M x)
                    ltac:(lia) ltac:(lia)).
    assert (Dy := concat_div bits_for_bids (offset_val M y) (bid_val M y)
                    ltac:(lia) ltac:(lia)).
    assert (Mx := concat_mod bits_for_bids (offset_val M x) (bid_val M x)
                    ltac:(lia) ltac:(lia)).
    assert (My := concat_mod bits_for_bids (offset_val M y) (bid_val M y)
                    ltac:(lia) ltac:(lia)).
    rewrite Heq in Dx, Mx. split; congruence.
  - unfold ptr_eq. cbn [evalB cmp_sem]. rewrite !Z.eqb_refl. reflexivity.
Qed.

(** X4. The ordered comparisons compare the offsets, unsigned or signed as
    the tag says, and their non-poison flag says that the block ids are
    equal; so two pointers reached from the same pointer by additions are
    always compared without poison. *)
Theorem ptr_cmp_same_block (M : model) (op : Pred) (x y ptr : Pointer)
    (a b : expr) :
  evalB M (value (ptr_cmp op x y)) =
    cmp_sem op bits_for_offset (offset_val M x) (offset_val M y)
  /\ evalB M (non_poison (ptr_cmp op x y)) = (bid_val M x =? bid_val M y)
  /\ evalB M (non_poison (ptr_cmp op (ptr_add ptr a) (ptr_add ptr b))) = true
  /\ evalB M (non_poison (ptr_cmp op (ptr_add ptr a) ptr)) = true.
Proof.
  unfold ptr_cmp; cbn [value non_poison evalB].
  rewrite bits_get_offset.
  destruct (fields_ptr_add M ptr a) as [_ Ha].
  destruct (fields_ptr_add M ptr b) as [_ Hb].
  unfold bid_val in *. cbn [cmp_sem]. rewrite Ha, Hb, !Z.eqb_refl.
  repeat split.
Qed.

(** ** Bounds *)

Lemma signed_range (w v : Z) :
  0 < w -> - 2 ^ (w - 1) <= signed w v < 2 ^ (w - 1).
Proof.
  intros Hw. unfold signed.
  pose proof (wrap_range w v ltac:(lia)) as R.
  pose proof (pow2_pos (w - 1) ltac:(lia)) as P.
  assert (E : 2 ^ w = 2 * 2 ^ (w - 1)).
  { replace w with (1 + (w - 1)) at 1 by lia.
    rewrite Z.pow_add_r by lia. reflexivity. }
  destruct (wrap w v <? 2 ^ (w - 1)) eqn:C.
  - apply Z.ltb_lt in C. lia.
  - apply Z.ltb_ge in C. lia.
Qed.

Lemma wrap_negative (w x : Z) :
  0 <= w -> - 2 ^ w <= x < 0 -> wrap w x = x + 2 ^ w.
Proof.
  intros Hw Hx. rewrite wrap_mod. pose proof (pow2_pos w Hw).
  replace x with (x + 2 ^ w + (-1) * 2 ^ w) at 1 by lia.
  rewrite Z.mod_add by lia. apply Z.mod_small. lia.
Qed.

(** The offset on [size_t] bits is the signed offset, wrapped. *)
Lemma eval_sext_offset (M : model) (ptr : Pointer) :
  evalBV M (sextOrTrunc (get_offset ptr) bits_size_t) =
  wrap bits_size_t (signed bits_for_offset (offset_val M ptr)).
Proof.
  unfold sextOrTrunc. rewrite bits_get_offset.
  destruct (bits_for_offset <? bits_size_t) eqn:C.
  - cbn [evalBV bits]. rewrite bits_get_offset.
    f_equal. lia.
  - apply Z.ltb_ge in C. assert (bits_size_t = bits_for_offset) as -> by lia.
    rewrite eval_trunc, wrap_signed by lia. reflexivity.
Qed.

Lemma block_size_bound (M : model) (s : State) (ptr : Pointer) :
  bits (block_size s ptr) = bits_size_t
  /\ 0 <= evalBV M (block_size s ptr) < 2 ^ (bits_size_t - 1).
Proof.
  unfold block_size.
  set (r := If (is_local ptr)
              (UF (mkName "blks_size" (isSource s)) [get_local_bid ptr]
                  (bits (mkUInt 0 (bits_size_t - 1))))
              (UF "blks_size" [get_nonlocal_bid ptr]
                  (bits (mkUInt 0 (bits_size_t - 1))))).
  assert (Hr : bits r = bits_size_t - 1) by reflexivity.
  split; [cbn [bits]; rewrite Hr; cbn [bits mkUInt]; lia|].
  rewrite eval_Concat by (rewrite ?Hr; cbn [bits mkUInt]; lia).
  rewrite eval_mkUInt_0, Z.mul_0_l, Z.add_0_l, <- Hr.
  apply evalBV_range. lia.
Qed.

(** X5. The size of a block has its top bit clear: it is below two to the
    width of [size_t] minus one, in every model and for every pointer. *)
Theorem block_size_top_bit_clear (M : model) (s : State) (ptr : Pointer) :
  bits (block_size s ptr) = bits_size_t
  /\ 0 <= evalBV M (block_size s ptr) < 2 ^ (bits_size_t - 1)
  /\ Z.testbit (evalBV M (block_size s ptr)) (bits_size_t - 1) = false.
Proof.
  destruct (block_size_bound M s ptr) as [Hb R].
  split; [exact Hb|]. split; [exact R|].
  destruct (Z.eq_dec (evalBV M (block_size s ptr)) 0) as [->|Hn].
  - apply Z.testbit_0_l.
  - apply Z.bits_above_log2; [lia|].
    apply Z.log2_lt_pow2; lia.
Qed.

(** X6. [inbounds] holds exactly when the offset, read as a signed number,
    is at least zero and at most the size of the block: the unsigned test of
    the code rejects the negative offsets too. *)
Theorem inbounds_signed_offset (M : model) (s : State) (ptr : Pointer) :
  evalB M (inbounds s ptr) = true <->
  0 <= signed bits_for_offset (offset_val M ptr)
       <= evalBV M (block_size s ptr).
Proof.
  unfold inbounds. cbn [evalB cmp_sem].
  rewrite eval_sext_offset, Z.leb_le.
  destruct (block_size_bound M s ptr) as [_ R].
  pose proof (signed_range bits_for_offset (offset_val M ptr) offset_pos) as S.
  pose proof (Z.pow_le_mono_r 2 (bits_for_offset - 1) (bits_size_t - 1)
                ltac:(lia) ltac:(lia)) as P.
  pose proof (pow2_pos (bits_size_t - 1) ltac:(lia)) as P1.
  assert (E : 2 ^ bits_size_t = 2 * 2 ^ (bits_size_t - 1)).
  { replace bits_size_t with (1 + (bits_size_t - 1)) at 1 by lia.
    rewrite Z.pow_add_r by lia. reflexivity. }
  destruct (Z.lt_ge_cases (signed bits_for_offset (offset_val M ptr)) 0)
    as [Hneg|Hpos].
  - rewrite wrap_negative by lia. lia.
  - rewrite wrap_small by lia. lia.
Qed.

(** ** The dereference guard *)

(** The meaning of the condition that [is_dereferenceable] adds. *)
Lemma deref_cond_sem (M : model) (s : State) (ptr : Pointer) (bytes0 : expr)
    (align : Z) :
  exists cond,
    undef_behavior (is_dereferenceable s ptr bytes0 align) =
      undef_behavior s ++ [cond]
    /\ evalB M cond =
         implb (0 <? wrap bits_size_t (evalBV M bytes0))
           ((evalBV M (sextOrTrunc (get_offset ptr) bits_size_t)
             + wrap bits_size_t (evalBV M bytes0)
             <=? evalBV M (block_size s ptr))
            && (evalBV M (sextOrTrunc (get_offset ptr) bits_size_t)
                + wrap bits_size_t (evalBV M bytes0) <? 2 ^ bits_size_t)
            && evalB M (is_aligned s ptr align))%bool.
Proof.
  eexists. split; [reflexivity|].
  unfold ugt_u. cbn [evalB cmp_sem].
  rewrite eval_mkUInt_0, eval_Add, bits_sextOrTrunc, eval_zextOrTrunc.
  pose proof (evalBV_range M (sextOrTrunc (get_offset ptr) bits_size_t)) as R.
  rewrite bits_sextOrTrunc in R.
  pose proof (wrap_range bits_size_t (evalBV M bytes0) size_nonneg) as Rn.
  destruct (0 <? wrap bits_size_t (evalBV M bytes0)); [|reflexivity].
  cbn [implb].
  destruct (evalBV M (sextOrTrunc (get_offset ptr) bits_size_t)
            + wrap bits_size_t (evalBV M bytes0) <? 2 ^ bits_size_t) eqn:C.
  - apply Z.ltb_lt in C. rewrite wrap_small by lia. reflexivity.
  - rewrite !andb_false_r. reflexivity.
Qed.

(** X7. A count of zero is always dereferenceable: when the count is zero
    on [size_t] bits, the condition that [is_dereferenceable] adds holds in
    the model, whatever the pointer and the alignment.  For the overload
    that takes a machine integer this is the case of every multiple of two
    to the offset width. *)
Theorem zero_bytes_dereferenceable (M : model) (s : State) (ptr : Pointer)
    (bytes0 : expr) (align : Z) :
  (wrap bits_size_t (evalBV M bytes0) = 0 ->
   exists cond,
     undef_behavior (is_dereferenceable s ptr bytes0 align) =
       undef_behavior s ++ [cond]
     /\ evalB M cond = true)
  /\ (forall k, 0 <= k < 2 ^ 32 -> k mod 2 ^ bits_for_offset = 0 ->
      exists cond,
        undef_behavior (is_dereferenceable_u s ptr k align) =
          undef_behavior s ++ [cond]
        /\ evalB M cond = true).
Proof.
  assert (Hz : forall b, wrap bits_size_t (evalBV M b) = 0 ->
            exists cond,
              undef_behavior (is_dereferenceable s ptr b align) =
                undef_behavior s ++ [cond]
              /\ evalB M cond = true).
  { intros b H0. destruct (deref_cond_sem M s ptr b align) as (c & Hc & E).
    exists c. split; [exact Hc|]. rewrite E, H0. reflexivity. }
  split; [apply Hz|].
  intros k Hk H0. unfold is_dereferenceable_u. apply Hz.
  destruct (is_dereferenceable_u_count M s ptr k align Hk) as [_ E].
  rewrite eval_zextOrTrunc in E. rewrite E. exact H0.
Qed.

(** X8. When the condition that [is_dereferenceable] adds holds for a
    positive count, the pointer is in bounds, the count is at most the size
    of the block and the pointer is aligned as asked. *)
Theorem dereferenceable_inbounds (M : model) (s : State) (ptr : Pointer)
    (bytes0 : expr) (align : Z) :
  0 < wrap bits_size_t (evalBV M bytes0) ->
  exists cond,
    undef_behavior (is_dereferenceable s ptr bytes0 align) =
      undef_behavior s ++ [cond]
    /\ (evalB M cond = true ->
        evalB M (inbounds s ptr) = true
        /\ wrap bits_size_t (evalBV M bytes0) <= evalBV M (block_size s ptr)
        /\ evalB M (is_aligned s ptr align) = true).
Proof.
  intros Hn. destruct (deref_cond_sem M s ptr bytes0 align) as (c & Hc & E).
  exists c. split; [exact Hc|]. rewrite E.
  apply Z.ltb_lt in Hn. rewrite Hn. cbn [implb].
  rewrite !andb_true_iff, Z.leb_le, Z.ltb_lt. intros [[Hle Hov] Ha].
  apply Z.ltb_lt in Hn.
  pose proof (evalBV_range M (sextOrTrunc (get_offset ptr) bits_size_t)) as R.
  rewrite bits_sextOrTrunc in R. pose proof size_nonneg.
  split; [|split; [lia|exact Ha]].
  unfold inbounds. cbn [evalB cmp_sem]. apply Z.leb_le. lia.
Qed.

(** X9. [is_disjoint] adds one condition to the undefined-behaviour
    conditions and nothing else; the condition holds when the block ids
    differ or one range starts at or after the end of the other; it has the
    same truth value when the two ranges change places; and a range of
    positive length whose end does not wrap is not disjoint from itself. *)
Theorem is_disjoint_symmetric (M : model) (s : State) (x y : Pointer)
    (len1 len2 : expr) :
  exists c1 c2,
    undef_behavior (is_disjoint s x len1 y len2) = undef_behavior s ++ [c1]
    /\ precondition (is_disjoint s x len1 y len2) = precondition s
    /\ undef_behavior (is_disjoint s y len2 x len1) = undef_behavior s ++ [c2]
    /\ evalB M c1 = evalB M c2
    /\ (evalB M c1 = true <->
        bid_val M x <> bid_val M y
        \/ wrap bits_size_t
             (evalBV M (sextOrTrunc (get_offset y) bits_size_t)
              + evalBV M (zextOrTrunc len2 bits_size_t))
           <= evalBV M (sextOrTrunc (get_offset x) bits_size_t)
        \/ wrap bits_size_t
             (evalBV M (sextOrTrunc (get_offset x) bits_size_t)
              + evalBV M (zextOrTrunc len1 bits_size_t))
           <= evalBV M (sextOrTrunc (get_offset y) bits_size_t))
    /\ (bid_val M x = bid_val M y -> offset_val M x = offset_val M y ->
        evalBV M len1 = evalBV M len2 ->
        0 < wrap bits_size_t (evalBV M len1) ->
        evalBV M (sextOrTrunc (get_offset x) bits_size_t)
        + wrap bits_size_t (evalBV M len1) < 2 ^ bits_size_t ->
        evalB M c1 = false).
Proof.
  eexists; eexists.
  split; [reflexivity|]. split; [reflexivity|]. split; [reflexivity|].
  unfold disjoint. cbn [evalB cmp_sem]. rewrite !eval_Add, !bits_sextOrTrunc.
  fold (bid_val M x) (bid_val M y).
  split; [|split].
  - rewrite (Z.eqb_sym (bid_val M y)). rewrite (orb_comm (_ <=? _)).
    reflexivity.
  - rewrite !orb_true_iff, negb_true_iff, Z.eqb_neq, !Z.leb_le. reflexivity.
  - intros Hb Ho Hl Hpos Hov.
    rewrite !eval_sext_offset, !eval_zextOrTrunc in *.
    rewrite <- Ho, <- Hl, Hb, Z.eqb_refl. cbn [negb orb].
    rewrite wrap_small.
    + rewrite orb_diag. apply Z.leb_gt. lia.
    + pose proof (wrap_range bits_size_t
                    (signed bits_for_offset (offset_val M x)) size_nonneg).
      lia.
Qed.

Lemma length_append (a b : string) :
  String.length (a ++ b) = (String.length a + String.length b)%nat.
Proof. induction a as [|c a IH]; cbn; [reflexivity|]. rewrite IH. reflexivity. Qed.

(** X10. The names that [mkName] gives to the functions of the source run
    and of the target run are different from each other and from the name
    shared by both runs. *)
Theorem mkName_separates_runs (str : string) (src : bool) :
  mkName str true <> mkName str false
  /\ mkName str src <> str.
Proof.
  unfold mkName. split.
  - induction str as [|c str IH]; cbn.
    + discriminate.
    + intros H. injection H as H. exact (IH H).
  - intros H. apply (f_equal String.length) in H.
    rewrite length_append in H. destruct src; cbn in H; lia.
Qed.

(** ** The heap of a function that starts *)

Lemma eval_Load (M : model) (a i : expr) :
  evalBV M (Load a i) = wrap (bits a) (evalA M a (evalBV M i)).
Proof. reflexivity. Qed.

Lemma eval_If (M : model) (c t e : expr) :
  evalBV M (If c t e) =
  wrap (bits t) (if evalB M c then evalBV M t else evalBV M e).
Proof. reflexivity. Qed.

Lemma eval_bind_var (M : model) (x : string) (w a : Z) :
  evalBV (bind M (Var x w) a) (Var x w) = wrap w a.
Proof.
  cbn [evalBV bits bind var_val]. rewrite String.eqb_refl, Z.eqb_refl.
  reflexivity.
Qed.

Lemma Extract_congr (M1 M2 : model) (h l : Z) (e1 e2 : expr) :
  evalBV M1 e1 = evalBV M2 e2 ->
  evalBV M1 (Extract h l e1) = evalBV M2 (Extract h l e2).
Proof. intros E. cbn [evalBV bits]. rewrite E. reflexivity. Qed.

(** Two pointer terms with the same bits, each in its model, have the same
    fields and are local together. *)
Lemma fields_congr (M1 M2 : model) (x y : Pointer) :
  evalBV M1 (p x) = evalBV M2 (p y) ->
  offset_val M1 x = offset_val M2 y
  /\ bid_val M1 x = bid_val M2 y
  /\ evalB M1 (is_local x) = evalB M2 (is_local y).
Proof.
  intros E. unfold offset_val, bid_val.
  split; [apply Extract_congr, E|]. split; [apply Extract_congr, E|].
  rewrite !eval_is_local.
  rewrite (Extract_congr M1 M2 _ _ (p x) (p y) E : evalBV M1 (get_local_bid x)
             = evalBV M2 (get_local_bid y)).
  rewrite (Extract_congr M1 M2 _ _ (p x) (p y) E
             : evalBV M1 (get_nonlocal_bid x)
               = evalBV M2 (get_nonlocal_bid y)).
  reflexivity.
Qed.

Lemma total_bits_pos : 0 < total_bits.
Proof. unfold total_bits. pose proof bids_pos. lia. Qed.

(** The cell that the heap of [Memory_new] holds at a pointer. *)
Lemma fresh_cell (M : model) (st : nat) (m : Memory) (q : expr) :
  Memory_new st = Some m -> bits q = total_bits ->
  evalBV M (Load (blocks_val m) q) =
  if evalB M (is_local {| p := q |}) then 0
  else wrap 9 (array_val M "blks_val" (evalBV M q)).
Proof.
  intros Hm Hq. unfold Memory_new in Hm.
  destruct (bits_for_offset <=? bits_size_t); [|discriminate].
  injection Hm as <-. cbn [blocks_val].
  rewrite eval_Load. cbn [evalA bits mkUInt].
  pose proof total_bits_pos as Ht.
  pose proof (evalBV_range M q) as R. rewrite Hq in R.
  set (M' := bind M (p (Pointer_var "#idx0")) (evalBV M q)).
  assert (Ev : evalBV M' (p (Pointer_var "#idx0")) = evalBV M q).
  { unfold M', Pointer_var; cbn [p]. rewrite eval_bind_var.
    apply wrap_small. lia. }
  destruct (fields_congr M' M (Pointer_var "#idx0") {| p := q |} Ev)
    as (_ & _ & Hl).
  change (bind M (Var "#idx0" total_bits) (evalBV M q)) with M'.
  change (Var "#idx0" total_bits) with (p (Pointer_var "#idx0")).
  rewrite eval_If, Hl. cbn [bits mkUInt].
  destruct (evalB M (is_local {| p := q |})).
  - rewrite eval_mkUInt_0. reflexivity.
  - rewrite eval_Load, Ev. unfold mk_val_array. cbn [bits evalA].
    rewrite !wrap_idem by lia. unfold M', Pointer_var; cbn [p bind array_val].
    reflexivity.
Qed.


Lemma le_sum_zero (n : nat) : le_sum (fun _ => 0) n = 0.
Proof. induction n as [|k IH]; cbn [le_sum]; [reflexivity|]. rewrite IH. lia. Qed.

Lemma or_all_zero (n : nat) : or_all (fun _ => 0) n = 0.
Proof. induction n as [|k IH]; cbn [or_all]; [reflexivity|]. rewrite IH. reflexivity. Qed.

Lemma bits_ptr_add (ptr : Pointer) (bytes : expr) :
  bits (p (ptr_add ptr bytes)) = total_bits.
Proof.
  unfold ptr_add, total_bits; cbn [p bits trunc]. rewrite bits_get_bid. lia.
Qed.

(** X12. A load from a local pointer in the heap of a function that starts
    is poison: for a type of at least one bit the loaded bits are zero and
    the non-poison flag is zero. *)
Theorem load_fresh_local_is_poison (M : model) (st : nat) (m : Memory)
    (s : State) (ptr : expr) (T : Type_) (align : Z) :
  Memory_new st = Some m ->
  evalB M (is_local {| p := ptr |}) = true ->
  0 < type_bits T ->
  exists val,
    fst (load m s ptr T align) = fromBV T val
    /\ evalBV M (value val) = 0
    /\ evalBV M (non_poison val) = 0.
Proof.
  intros Hm Hl Hb. unfold load. eexists. split; [reflexivity|].
  cbn [fst value non_poison].
  destruct (divide_up_8 (type_bits T) Hb) as (Hn1 & Hn2 & _).
  set (n := divide_up (type_bits T) 8) in *.
  assert (Hk : n = Z.of_nat (S (Z.to_nat (n - 1)))) by lia.
  rewrite Hk.
  destruct (load_loop M (blocks_val m) {| p := ptr |} (Z.to_nat (n - 1)))
    as (_ & _ & _ & Hv & Hp).
  assert (Hcell : forall i,
            evalBV M (Load (blocks_val m) (p (ptr_add_u {| p := ptr |} i)))
            = 0).
  { intros i. rewrite (fresh_cell M st m _ Hm) by apply bits_ptr_add.
    replace {| p := p (ptr_add_u {| p := ptr |} i) |}
      with (ptr_add_u {| p := ptr |} i)
      by (destruct (ptr_add_u {| p := ptr |} i); reflexivity).
    unfold ptr_add_u.
    destruct (is_local_ptr_add M {| p := ptr |} (mkUInt i bits_for_offset))
      as (_ & _ & ->).
    rewrite Hl. reflexivity. }
  split.
  - rewrite eval_trunc, Hv.
    rewrite (le_sum_ext _ (fun _ => 0)), le_sum_zero.
    + rewrite wrap_mod. apply Z.mod_0_l.
      pose proof (pow2_pos (type_bits T)). lia.
    + intros i _. unfold byte_at. rewrite eval_Extract, Hcell by lia.
      rewrite wrap_mod. apply Z.mod_0_l. lia.
  - rewrite Hp, (or_all_ext _ (fun _ => 0)), or_all_zero; [reflexivity|].
    intros i _. unfold flag_at. rewrite eval_Extract, Hcell by lia.
    rewrite wrap_mod. apply Z.mod_0_l. lia.
Qed.

(** X13. The pointer that [mkInput] makes for an argument is never local:
    its local block id is zero, its offset is the high part and its
    non-local block id the low part of the one variable that [mkInput]
    returns beside it. *)
Theorem mkInput_not_local (M : model) (name : string) :
  let var := Var name (bits_for_nonlocal_bid + bits_for_offset) in
  let q := {| p := fst (mkInput name) |} in
  snd (mkInput name) = [var]
  /\ bits (p q) = total_bits
  /\ evalBV M (get_local_bid q) = 0
  /\ evalB M (is_local q) = false
  /\ offset_val M q = evalBV M var / 2 ^ bits_for_nonlocal_bid
  /\ evalBV M (get_nonlocal_bid q) =
       evalBV M var mod 2 ^ bits_for_nonlocal_bid.
Proof.
  cbv zeta. unfold mkInput; cbn [fst snd].
  set (var := Var name (bits_for_nonlocal_bid + bits_for_offset)).
  set (o := Extract (bits_for_nonlocal_bid + bits_for_offset - 1)
                    bits_for_nonlocal_bid var).
  set (n := Extract (bits_for_nonlocal_bid - 1) 0 var).
  assert (F := fields_of_Pointer_fields M o (mkUInt 0 bits_for_local_bid) n
                 ltac:(cbn [bits o]; lia) eq_refl ltac:(cbn [bits n]; lia)).
  cbv zeta in F. destruct F as (Hw & Ho & Hl & Hn).
  replace {| p := p (Pointer_fields o (mkUInt 0 bits_for_local_bid) n) |}
    with (Pointer_fields o (mkUInt 0 bits_for_local_bid) n) by reflexivity.
  rewrite eval_mkUInt_0 in Hl.
  pose proof (evalBV_range M var) as R. cbn [bits var] in R.
  pose proof (pow2_pos bits_for_nonlocal_bid) as Pn.
  pose proof (pow2_pos bits_for_offset) as Po.
  split; [reflexivity|]. split; [exact Hw|]. split; [exact Hl|].
  split; [rewrite eval_is_local, Hl; reflexivity|].
  split.
  - unfold offset_val. rewrite Ho. unfold o. rewrite eval_Extract by lia.
    replace (bits_for_nonlocal_bid + bits_for_offset - 1
             - bits_for_nonlocal_bid + 1) with bits_for_offset by lia.
    apply wrap_small. split.
    + apply Z.div_pos; lia.
    + apply Z.div_lt_upper_bound; [lia|].
      rewrite <- Z.pow_add_r by lia. lia.
  - rewrite Hn. unfold n. rewrite eval_Extract by lia.
    change (2 ^ 0) with 1. rewrite Z.div_1_r.
    replace (bits_for_nonlocal_bid - 1 - 0 + 1) with bits_for_nonlocal_bid
      by lia.
    apply wrap_mod.
Qed.

(** ** Allocation *)

Lemma u32_small (n : Z) : 0 <= n < 2 ^ 32 -> u32 n = n.
Proof. apply wrap_small. Qed.

Lemma alloc_many_S (n : nat) (m : Memory) (s : State) (bytes : expr)
    (align : Z) :
  alloc_many (S n) m s bytes align =
  alloc_many n (snd (fst (alloc m s bytes align true)))
             (snd (alloc m s bytes align true)) bytes align.
Proof. reflexivity. Qed.

Lemma alloc_counter (m : Memory) (s : State) (bytes : expr) (align : Z)
    (local : bool) :
  last_bid (snd (fst (alloc m s bytes align local))) = u32 (last_bid m + 1)
  /\ fst (fst (alloc m s bytes align local)) =
       p (Pointer_bid (u32 (last_bid m + 1)) local).
Proof. split; reflexivity. Qed.

(** The pointer and the counter after [n + 1] allocations of local blocks,
    as long as the counter does not wrap. *)
Lemma alloc_many_counter (n : nat) (m : Memory) (s : State) (bytes : expr)
    (align : Z) :
  0 <= last_bid m -> last_bid m + Z.of_nat n + 1 < 2 ^ 32 ->
  fst (fst (alloc_many n m s bytes align)) =
    p (Pointer_bid (last_bid m + Z.of_nat n + 1) true)
  /\ last_bid (snd (fst (alloc_many n m s bytes align))) =
       last_bid m + Z.of_nat n + 1.
Proof.
  revert m s. induction n as [|n IH]; intros m s H0 Hlt.
  - change (alloc_many 0 m s bytes align) with (alloc m s bytes align true).
    destruct (alloc_counter m s bytes align true) as [-> ->].
    rewrite u32_small by lia.
    change (Z.of_nat 0) with 0. rewrite Z.add_0_r. split; reflexivity.
  - rewrite alloc_many_S.
    destruct (alloc_counter m s bytes align true) as [Hc _].
    rewrite u32_small in Hc by lia.
    destruct (IH (snd (fst (alloc m s bytes align true)))
                 (snd (alloc m s bytes align true))) as [Hp Hl];
      rewrite ?Hc; try lia.
    rewrite Hp, Hl, Hc.
    replace (last_bid m + 1 + Z.of_nat n + 1)
      with (last_bid m + Z.of_nat (S n) + 1) by lia.
    split; reflexivity.
Qed.

(** X14. A block id is not handed out again soon: the pointer of a local
    allocation and the pointer of a local allocation made [n + 1]
    allocations later are different, as long as [n + 1] is below two to the
    width of the local block id and the counter does not wrap. *)
Theorem alloc_local_fresh (M : model) (n : nat) (m : Memory) (s : State)
    (bytes bytes' : expr) (align align' : Z) :
  bits_for_bids <= 64 ->
  0 <= last_bid m -> last_bid m + Z.of_nat n + 2 < 2 ^ 32 ->
  Z.of_nat n + 1 < 2 ^ bits_for_local_bid ->
  let '(p1, m1, s1) := alloc m s bytes align true in
  let '(p2, _, _) := alloc_many n m1 s1 bytes' align' in
  evalBV M (get_local_bid {| p := p1 |}) <>
    evalBV M (get_local_bid {| p := p2 |})
  /\ evalB M (ptr_eq {| p := p1 |} {| p := p2 |}) = false
  /\ evalBV M p1 <> evalBV M p2.
Proof.
  intros H64 H0 Hlt Hd.
  destruct (alloc m s bytes align true) as [[p1 m1] s1] eqn:Ea.
  destruct (alloc_many n m1 s1 bytes' align') as [[p2 m2] s2] eqn:Eb.
  assert (Hm1 : last_bid m1 = last_bid m + 1 /\
                p1 = p (Pointer_bid (last_bid m + 1) true)).
  { unfold alloc in Ea. injection Ea as <- <- _. cbn [last_bid].
    rewrite u32_small by lia. split; reflexivity. }
  destruct Hm1 as [Hm1 ->].
  destruct (alloc_many_counter n m1 s1 bytes' align') as [Hp _]; try lia.
  rewrite Eb in Hp. cbn [fst] in Hp. subst p2. rewrite Hm1.
  replace {| p := p (Pointer_bid (last_bid m + 1) true) |}
    with (Pointer_bid (last_bid m + 1) true) by reflexivity.
  replace {| p := p (Pointer_bid (last_bid m + 1 + Z.of_nat n + 1) true) |}
    with (Pointer_bid (last_bid m + 1 + Z.of_nat n + 1) true) by reflexivity.
  destruct (fields_Pointer_bid_local M (last_bid m + 1) H64 ltac:(lia))
    as (L1 & _ & _).
  destruct (fields_Pointer_bid_local M (last_bid m + 1 + Z.of_nat n + 1) H64
              ltac:(lia)) as (L2 & _ & _).
  assert (Hne : evalBV M (get_local_bid (Pointer_bid (last_bid m + 1) true))
                <> evalBV M (get_local_bid
                     (Pointer_bid (last_bid m + 1 + Z.of_nat n + 1) true))).
  { rewrite L1, L2. intros E. apply wrap_eq_small in E; lia. }
  split; [exact Hne|].
  set (x := Pointer_bid (last_bid m + 1) true) in *.
  set (y := Pointer_bid (last_bid m + 1 + Z.of_nat n + 1) true) in *.
  assert (Hb : bid_val M x <> bid_val M y).
  { destruct (local_nonlocal_of_bid M x) as [Ex _].
    destruct (local_nonlocal_of_bid M y) as [Ey _].
    intros E. rewrite Ex, Ey, E in Hne. apply Hne. reflexivity. }
  split.
  - unfold ptr_eq. cbn [evalB cmp_sem]. fold (bid_val M x) (bid_val M y).
    apply Z.eqb_neq in Hb. rewrite Hb. reflexivity.
  - intros E. apply Hb. unfold bid_val. apply Extract_congr, E.
Qed.

(** X15. The pointer of an allocation that is not local: while the counter
    is below two to the width of the non-local block id, the pointer has
    offset zero, the counter as its non-local block id and zero as its local
    block id, and is not local.  When the counter reaches two to that width
    the id spills into the local field and the pointer counts as local. *)
Theorem alloc_nonlocal_fields (M : model) (m : Memory) (s : State)
    (bytes : expr) (align : Z) :
  bits_for_bids <= 64 ->
  let c := u32 (last_bid m + 1) in
  let '(q, m', s') := alloc m s bytes align false in
  let ptr := {| p := q |} in
  offset_val M ptr = 0
  /\ bid_val M ptr = wrap bits_for_bids c
  /\ (c < 2 ^ bits_for_nonlocal_bid ->
      evalBV M (get_local_bid ptr) = 0
      /\ evalBV M (get_nonlocal_bid ptr) = c
      /\ evalB M (is_local ptr) = false)
  /\ (c = 2 ^ bits_for_nonlocal_bid ->
      evalBV M (get_local_bid ptr) = 1
      /\ evalBV M (get_nonlocal_bid ptr) = 0
      /\ evalB M (is_local ptr) = true).
Proof.
  intros H64. cbv zeta. unfold alloc. cbn [last_bid].
  set (c := u32 (last_bid m + 1)).
  pose proof (u32_range (last_bid m + 1)) as Rc. fold c in Rc.
  replace {| p := p (Pointer_bid c false) |} with (Pointer_bid c false)
    by reflexivity.
  pose proof bids_pos as Hp.
  pose proof (pow2_pos bits_for_nonlocal_bid) as Pn.
  pose proof (pow2_pos bits_for_local_bid) as Pl.
  destruct (fields_of_concat M (mkUInt 0 bits_for_offset)
              (mkUInt c bits_for_bids) eq_refl eq_refl) as [Ho Hb].
  change {| p := Concat (mkUInt 0 bits_for_offset) (mkUInt c bits_for_bids) |}
    with (Pointer_bid c false) in Ho, Hb.
  rewrite eval_mkUInt_0 in Ho. rewrite eval_mkUInt in Hb by lia.
  rewrite u64_small in Hb
    by (change (2 ^ 32) with 4294967296 in Rc;
        change (2 ^ 64) with 18446744073709551616; lia).
  destruct (local_nonlocal_of_bid M (Pointer_bid c false)) as [El En].
  rewrite Hb in El, En.
  assert (E2 : 2 ^ bits_for_bids =
               2 ^ bits_for_local_bid * 2 ^ bits_for_nonlocal_bid).
  { unfold bits_for_bids. apply Z.pow_add_r; lia. }
  split; [exact Ho|]. split; [exact Hb|]. split.
  - intros Hc.
    assert (W : wrap bits_for_bids c = c) by (apply wrap_small; nia).
    rewrite W in El, En.
    rewrite Z.div_small in El by lia. rewrite Z.mod_small in En by lia.
    split; [exact El|]. split; [exact En|].
    rewrite eval_is_local, El. reflexivity.
  - intros Hc.
    assert (Pl2 : 2 <= 2 ^ bits_for_local_bid).
    { pose proof (Z.pow_le_mono_r 2 1 bits_for_local_bid). lia. }
    assert (W : wrap bits_for_bids c = c) by (apply wrap_small; nia).
    assert (Ed : c / 2 ^ bits_for_nonlocal_bid = 1)
      by (rewrite Hc; apply Z.div_same; lia).
    assert (Em : c mod 2 ^ bits_for_nonlocal_bid = 0)
      by (rewrite Hc; apply Z.mod_same; lia).
    rewrite W in El, En. rewrite Ed in El. rewrite Em in En.
    split; [exact El|]. split; [exact En|].
    rewrite eval_is_local, El, En. reflexivity.
Qed.

(** ** Stores and the cells they leave alone *)

Lemma bid_val_ptr_add_u (M : model) (ptr : Pointer) (i : Z) :
  bid_val M (ptr_add_u ptr i) = bid_val M ptr.
Proof. unfold ptr_add_u. apply fields_ptr_add. Qed.

(** A pointer of another block is none of the addresses [ptr + i]. *)
Lemma other_block_other_address (M : model) (ptr : Pointer) (q : expr)
    (i : Z) :
  bid_val M {| p := q |} <> bid_val M ptr ->
  evalBV M (p (ptr_add_u ptr i)) <> evalBV M q.
Proof.
  intros Hb E. apply Hb. rewrite <- (bid_val_ptr_add_u M ptr i).
  symmetry. unfold bid_val. apply Extract_congr. exact E.
Qed.

(** X16. [store] changes the cells at the addresses of the bytes it writes
    and no other cell: a load at any pointer of another block, or at any
    address that is none of [ptr + i], finds what it found before.  [store]
    leaves the counters and the preconditions alone and appends one
    condition to the undefined-behaviour conditions, the one that
    [is_dereferenceable] makes for the number of bytes of the value. *)
Theorem store_frame (M : model) (m : Memory) (s : State) (ptr q : expr)
    (v : StateValue) (T : Type_) (align : Z) :
  let m' := fst (store m s ptr v T align) in
  let s' := snd (store m s ptr v T align) in
  let bytes := divide_up (bits (value (toBV T v))) 8 in
  let offset_ext :=
    evalBV M (sextOrTrunc (get_offset {| p := ptr |}) bits_size_t) in
  (forall a,
     (forall i, 0 <= i < bytes ->
                evalBV M (p (ptr_add_u {| p := ptr |} i)) <> a) ->
     evalA M (blocks_val m') a = evalA M (blocks_val m) a)
  /\ (bid_val M {| p := q |} <> bid_val M {| p := ptr |} ->
      evalBV M (Load (blocks_val m') q) = evalBV M (Load (blocks_val m) q))
  /\ state m' = state m /\ last_bid m' = last_bid m
  /\ last_idx_ptr m' = last_idx_ptr m
  /\ precondition s' = precondition s
  /\ s' = is_dereferenceable_u s {| p := ptr |} bytes align
  /\ (exists cond,
        undef_behavior s' = undef_behavior s ++ [cond]
        /\ (0 <= bytes < 2 ^ 32 ->
            evalB M cond =
              implb (0 <? bytes mod 2 ^ bits_for_offset)
                ((offset_ext + bytes mod 2 ^ bits_for_offset
                  <=? evalBV M (block_size s {| p := ptr |}))
                 && (offset_ext + bytes mod 2 ^ bits_for_offset
                     <? 2 ^ bits_size_t)
                 && evalB M (is_aligned s {| p := ptr |} align))%bool)).
Proof.
  cbv zeta. unfold store.
  cbn [fst snd blocks_val set_blocks_val state last_bid last_idx_ptr].
  rewrite store_loop_chain.
  assert (F : forall a,
            (forall i, 0 <= i < divide_up (bits (value (toBV T v))) 8 ->
                       evalBV M (p (ptr_add_u {| p := ptr |} i)) <> a) ->
            evalA M (store_chain (fun i => p (ptr_add_u {| p := ptr |} i))
                       (store_cell
                          {| value :=
                               Zext (divide_up (bits (value (toBV T v))) 8 * 8
                                     - bits (value (toBV T v)))
                                    (value (toBV T v));
                             non_poison := non_poison (toBV T v) |})
                       (upto (divide_up (bits (value (toBV T v))) 8))
                       (blocks_val m)) a
            = evalA M (blocks_val m) a).
  { intros a Ha. apply store_chain_other. intros j Hj.
    apply Ha, In_upto, Hj. }
  split; [exact F|]. split.
  - intros Hb. rewrite !eval_Load, bits_store_chain. f_equal.
    apply F. intros i _. apply other_block_other_address, Hb.
  - do 5 (split; [reflexivity|]).
    destruct (deref_cond_sem M s {| p := ptr |}
                (mkUInt (divide_up (bits (value (toBV T v))) 8)
                        bits_for_offset) align) as (cond & Hu & Hc).
    exists cond. split; [exact Hu|]. intros Hbytes.
    rewrite Hc.
    rewrite <- (eval_zextOrTrunc M (mkUInt _ bits_for_offset) bits_size_t).
    rewrite (proj2 (is_dereferenceable_u_count M s {| p := ptr |} _ align
                      Hbytes)).
    reflexivity.
Qed.

(** The loop of [load] over the first bytes of what [store] wrote. *)
Lemma load_prefix_after_store (M : model) (ptr : Pointer) (val : StateValue)
    (bv : expr) (k : nat) (n : Z) :
  bits bv = 9 -> bits (non_poison val) = 1 ->
  Z.of_nat (S k) <= n -> n <= 2 ^ bits_for_offset -> n <= 2 ^ 64 ->
  let bv' := fold_left (store_byte ptr val) (upto n) bv in
  let acc := fold_left (load_byte bv' ptr) (upto (Z.of_nat (S k)))
               ({| value := Null; non_poison := Null |}, true) in
  bits (value (fst acc)) = 8 * Z.of_nat (S k)
  /\ bits (non_poison (fst acc)) = 1
  /\ evalBV M (value (fst acc)) =
       wrap (8 * Z.of_nat (S k)) (evalBV M (value val))
  /\ evalBV M (non_poison (fst acc)) = evalBV M (non_poison val).
Proof.
  intros Hbv Hnp Hk Hn Hn'. cbv zeta.
  set (bv' := fold_left (store_byte ptr val) (upto n) bv).
  destruct (load_loop M bv' ptr k) as (_ & Hb & Hbp & Hv & Hp).
  pose proof (evalBV_range M (non_poison val)) as Rnp.
  rewrite Hnp in Rnp. change (2 ^ 1) with 2 in Rnp.
  assert (Hcell : forall i, 0 <= i < Z.of_nat (S k) ->
            evalBV M (Load bv' (p (ptr_add_u ptr i))) =
            evalBV M (non_poison val) * 2 ^ 8
            + wrap 8 (evalBV M (value val) / 2 ^ (8 * i))).
  { intros i Hi. unfold bv'. rewrite stored_cell by (assumption || lia).
    apply eval_store_cell; [exact Hnp|lia]. }
  split; [exact Hb|]. split; [exact Hbp|]. split.
  - rewrite Hv, <- le_sum_bytes. apply le_sum_ext. intros i Hi.
    unfold byte_at. rewrite eval_Extract, (Hcell i Hi) by lia.
    change (2 ^ 0) with 1. rewrite Z.div_1_r.
    replace (8 - 1 - 0 + 1) with 8 by lia.
    apply concat_mod; [lia|]. apply wrap_range; lia.
  - rewrite Hp, <- (or_all_const (evalBV M (non_poison val)) k).
    apply or_all_ext. intros i Hi.
    unfold flag_at. rewrite eval_Extract, (Hcell i Hi) by lia.
    rewrite concat_div by (try apply wrap_range; lia).
    replace (8 - 8 + 1) with 1 by lia.
    apply wrap_small. change (2 ^ 1) with 2. lia.
Qed.

(** X17. Bytes are laid out with the least significant byte first: after
    the store of a value, a load at the same pointer of a type that has no
    more bytes than the value returns, through [fromBV], the low bits of
    the stored bits, as many as the loaded type has, and the non-poison flag
    of the stored value. *)
Theorem narrow_load_after_store (M : model) (m : Memory) (s s' : State)
    (ptr : expr) (v : StateValue) (T T' : Type_) (align align' : Z) :
  bits (blocks_val m) = 9 ->
  bits (non_poison (toBV T v)) = 1 ->
  0 < bits (value (toBV T v)) < 2 ^ 32 ->
  divide_up (bits (value (toBV T v))) 8 <= 2 ^ bits_for_offset ->
  0 < type_bits T' ->
  divide_up (type_bits T') 8 <= divide_up (bits (value (toBV T v))) 8 ->
  exists val',
    fst (load (fst (store m s ptr v T align)) s' ptr T' align') =
      fromBV T' val'
    /\ bits (value val') = type_bits T'
    /\ evalBV M (value val') =
         evalBV M (value (toBV T v)) mod 2 ^ type_bits T'
    /\ evalBV M (non_poison val') = evalBV M (non_poison (toBV T v)).
Proof.
  intros Hbv Hnp Hb Hfit Hb' Hle. unfold store, load.
  cbn [fst blocks_val set_blocks_val].
  eexists. split; [reflexivity|]. cbn [value non_poison].
  destruct (divide_up_8 (bits (value (toBV T v)))) as (Hn1 & Hn2 & Hn3);
    [lia|].
  destruct (divide_up_8 (type_bits T') Hb') as (Hk1 & Hk2 & Hk3).
  set (n := divide_up (bits (value (toBV T v))) 8) in *.
  set (k := divide_up (type_bits T') 8) in *.
  assert (Hk : k = Z.of_nat (S (Z.to_nat (k - 1)))) by lia.
  change (2 ^ 32) with 4294967296 in Hb.
  assert (H64 : n <= 2 ^ 64)
    by (change (2 ^ 64) with 18446744073709551616; lia).
  set (val := {| value := Zext (n * 8 - bits (value (toBV T v)))
                               (value (toBV T v));
                 non_poison := non_poison (toBV T v) |}).
  assert (Hval : evalBV M (value val) = evalBV M (value (toBV T v))).
  { subst val n. apply (eval_widened M (toBV T v)). lia. }
  pose proof (load_prefix_after_store M {| p := ptr |} val (blocks_val m)
                (Z.to_nat (k - 1)) n Hbv Hnp) as L.
  rewrite <- Hk in L. cbv zeta in L.
  destruct (L Hle Hfit H64) as (Lb & Lbp & Lv & Lp).
  split; [cbn [bits trunc]; lia|]. split.
  - rewrite eval_trunc, Lv, wrap_wrap_le by lia.
    rewrite Hval. apply wrap_mod.
  - exact Lp.
Qed.

(** X18. The unrolled path of [memset]: when the length is a numeral [n] of
    at most 4, a load at [ptr + i] finds, for every [i] below [n], the
    non-poison flag of the value above its byte; every address that is none
    of [ptr + i] keeps its cell; and no index variable is made. *)
Theorem memset_small_cells (M : model) (m : Memory) (s : State) (ptr : expr)
    (sv : StateValue) (bytes : expr) (align : Z) (n : Z) :
  isUInt bytes = Some n -> n <= 4 ->
  bits (blocks_val m) = 9 -> bits (value sv) = 8 ->
  let m' := fst (memset m s ptr sv bytes align) in
  (forall i, 0 <= i < n ->
     evalBV M (Load (blocks_val m') (p (ptr_add_u {| p := ptr |} i))) =
       (if evalB M (non_poison sv) then 1 else 0) * 2 ^ 8
       + evalBV M (value sv)
     /\ byte_at M (blocks_val m') {| p := ptr |} i = evalBV M (value sv)
     /\ flag_at M (blocks_val m') {| p := ptr |} i =
          (if evalB M (non_poison sv) then 1 else 0))
  /\ (forall a,
        (forall i, 0 <= i < n ->
                   evalBV M (p (ptr_add_u {| p := ptr |} i)) <> a) ->
        evalA M (blocks_val m') a = evalA M (blocks_val m) a)
  /\ last_idx_ptr m' = last_idx_ptr m
  /\ last_bid m' = last_bid m.
Proof.
  intros Hn H4 Hbv H8. cbv zeta.
  set (cell := Concat (ToBVBool (non_poison sv)) (value sv)).
  assert (E : fst (memset m s ptr sv bytes align) =
              set_blocks_val m
                (store_chain (fun i => p (ptr_add_u {| p := ptr |} i))
                   (fun _ => cell) (upto n) (blocks_val m))).
  { unfold memset. rewrite Hn.
    apply Z.leb_le in H4. rewrite H4. reflexivity. }
  rewrite E. cbn [blocks_val last_idx_ptr last_bid set_blocks_val].
  pose proof (evalBV_range M (value sv)) as R. rewrite H8 in R.
  assert (Hc : bits cell = 9 /\
               evalBV M cell =
               (if evalB M (non_poison sv) then 1 else 0) * 2 ^ 8
               + evalBV M (value sv)).
  { split; [unfold cell; cbn [bits]; lia|].
    unfold cell. rewrite eval_Concat by (cbn [bits]; lia). rewrite H8.
    f_equal. f_equal. cbn [evalBV bits].
    destruct (evalB M (non_poison sv)); reflexivity. }
  destruct Hc as [Hcb Hce].
  assert (Hload : forall i, 0 <= i < n ->
            evalBV M (Load (store_chain
                              (fun i => p (ptr_add_u {| p := ptr |} i))
                              (fun _ => cell) (upto n) (blocks_val m))
                           (p (ptr_add_u {| p := ptr |} i))) =
            evalBV M cell).
  { intros i Hi. rewrite eval_Load, bits_store_chain, Hbv.
    rewrite (store_chain_hit M (fun i => p (ptr_add_u {| p := ptr |} i))
               (fun _ => cell)).
    - rewrite <- Hcb. apply evalBV_wrap. lia.
    - apply In_upto, Hi.
    - reflexivity. }
  split; [|split; [|split; reflexivity]].
  - intros i Hi. split; [rewrite Hload, Hce by exact Hi; reflexivity|].
    assert (Fb : 0 <= (if evalB M (non_poison sv) then 1 else 0) < 2)
      by (destruct (evalB M (non_poison sv)); lia).
    unfold byte_at, flag_at. rewrite !eval_Extract by lia.
    rewrite (Hload i Hi), Hce. split.
    + change (2 ^ 0) with 1. rewrite Z.div_1_r.
      replace (8 - 1 - 0 + 1) with 8 by lia. apply concat_mod; lia.
    + rewrite concat_div by lia. replace (8 - 8 + 1) with 1 by lia.
      apply wrap_small. change (2 ^ 1) with 2. lia.
  - intros a Ha. apply store_chain_other.
    intros j Hj. apply Ha, In_upto, Hj.
Qed.

(** X20. The merge of two heaps fails exactly when their states differ.
    When it succeeds the merged array holds, at every address, the cell of
    the first heap where the condition is true and the cell of the second
    heap where it is false; both counters are at least those of the two
    heaps; and the merge of a heap with itself holds the cells and the
    counters of that heap. *)
Theorem mkIf_selects (M : model) (c : expr) (a b : Memory) :
  (mkIf c a b = None <-> state a <> state b)
  /\ (forall r, mkIf c a b = Some r ->
        state r = state a
        /\ (forall i, evalA M (blocks_val r) i =
                      if evalB M c then evalA M (blocks_val a) i
                      else evalA M (blocks_val b) i)
        /\ last_bid a <= last_bid r /\ last_bid b <= last_bid r
        /\ last_idx_ptr a <= last_idx_ptr r
        /\ last_idx_ptr b <= last_idx_ptr r)
  /\ (exists r, mkIf c a a = Some r
        /\ (forall i, evalA M (blocks_val r) i = evalA M (blocks_val a) i)
        /\ last_bid r = last_bid a /\ last_idx_ptr r = last_idx_ptr a).
Proof.
  split; [|split].
  - unfold mkIf. destruct (Nat.eqb (state a) (state b)) eqn:E.
    + apply Nat.eqb_eq in E. split; [discriminate|]. intros H. contradiction.
    + apply Nat.eqb_neq in E. split; [intros _; exact E|reflexivity].
  - intros r Hr. unfold mkIf in Hr.
    destruct (Nat.eqb (state a) (state b)); [|discriminate].
    injection Hr as <-. cbn [state blocks_val last_bid last_idx_ptr].
    split; [reflexivity|]. split.
    + intros i. cbn [evalA]. destruct (evalB M c); reflexivity.
    + lia.
  - unfold mkIf. rewrite Nat.eqb_refl. eexists. split; [reflexivity|].
    cbn [blocks_val last_bid last_idx_ptr]. split.
    + intros i. cbn [evalA]. destruct (evalB M c); reflexivity.
    + split; apply Z.max_id.
Qed.

(** [memcpy] hands the same conditions to the state on both of its
    paths: the dereference condition of the destination, then that of the
    source, then, only when [move] is false, the disjointness condition of
    the two ranges.  [memset] hands over the dereference condition alone.
    Neither touches the preconditions. *)
Lemma memcpy_conditions (m : Memory) (s : State) (d s0 bytes : expr)
    (sv : StateValue) (align_dst align_src : Z) (move : bool) :
  let dst := {| p := d |} in
  let src := {| p := s0 |} in
  let s2 := is_dereferenceable (is_dereferenceable s dst bytes align_dst)
              src bytes align_src in
  let s' := snd (memcpy m s d s0 bytes align_dst align_src move) in
  s' = (if move then s2 else is_disjoint s2 src bytes dst bytes)
  /\ precondition s' = precondition s
  /\ List.length (undef_behavior s') =
       (List.length (undef_behavior s) + (if move then 2 else 3))%nat
  /\ snd (memset m s d sv bytes align_dst) =
       is_dereferenceable s dst bytes align_dst
  /\ List.length (undef_behavior (snd (memset m s d sv bytes align_dst))) =
       S (List.length (undef_behavior s)).
Proof.
  cbv zeta.
  assert (E : snd (memcpy m s d s0 bytes align_dst align_src move) =
              (if move
               then is_dereferenceable
                      (is_dereferenceable s {| p := d |} bytes align_dst)
                      {| p := s0 |} bytes align_src
               else is_disjoint
                      (is_dereferenceable
                         (is_dereferenceable s {| p := d |} bytes align_dst)
                         {| p := s0 |} bytes align_src)
                      {| p := s0 |} bytes {| p := d |} bytes)).
  { unfold memcpy.
    destruct (isUInt bytes) as [n|]; [destruct (n <=? 4)|];
      destruct move; reflexivity. }
  assert (E' : snd (memset m s d sv bytes align_dst) =
               is_dereferenceable s {| p := d |} bytes align_dst).
  { unfold memset.
    destruct (isUInt bytes) as [n|]; [destruct (n <=? 4)|]; reflexivity. }
  rewrite E, E'. split; [reflexivity|].
  split; [destruct move; reflexivity|].
  split; [|split; [reflexivity|]].
  - destruct move; unfold is_disjoint, is_dereferenceable, addUB;
      cbn [undef_behavior]; rewrite !length_app; cbn; lia.
  - unfold is_dereferenceable, addUB; cbn [undef_behavior].
    rewrite length_app. cbn. lia.
Qed.

(** ** Addresses *)

Lemma signed_unique (w z x : Z) :
  0 < w -> - 2 ^ (w - 1) <= x < 2 ^ (w - 1) -> wrap w z = wrap w x ->
  signed w z = x.
Proof.
  intros Hw Hx E. unfold signed. rewrite E.
  pose proof (pow2_pos (w - 1) ltac:(lia)) as P.
  assert (E2 : 2 ^ w = 2 * 2 ^ (w - 1)).
  { replace w with (1 + (w - 1)) at 1 by lia.
    rewrite Z.pow_add_r by lia. reflexivity. }
  destruct (Z.lt_ge_cases x 0) as [Hneg|Hpos].
  - rewrite wrap_negative by lia.
    destruct (x + 2 ^ w <? 2 ^ (w - 1)) eqn:C.
    + apply Z.ltb_lt in C. lia.
    + lia.
  - rewrite wrap_small by lia.
    destruct (x <? 2 ^ (w - 1)) eqn:C.
    + reflexivity.
    + apply Z.ltb_ge in C. lia.
Qed.

(** The address of a pointer: the signed offset plus the base address that
    the function of the run, or the shared one, gives to the block. *)
Lemma eval_get_address (M : model) (s : State) (q : Pointer) :
  evalBV M (get_address s q) =
  wrap bits_size_t
    (signed bits_for_offset (offset_val M q)
     + (if evalB M (is_local q)
        then uf_val M (mkName "blks_addr" (isSource s))
                    [evalBV M (get_local_bid q)]
        else uf_val M "blks_addr" [evalBV M (get_nonlocal_bid q)])).
Proof.
  unfold get_address. rewrite eval_Add, bits_sextOrTrunc.
  rewrite eval_sext_offset, eval_If. cbn [bits].
  rewrite wrap_add_l, wrap_add_r.
  destruct (evalB M (is_local q)); cbn [evalBV bits map];
    rewrite wrap_add_r; reflexivity.
Qed.

(** X21. When [add_no_overflow] holds of a pointer and a count of the offset
    width, adding the count moves the signed offset, and the address that
    [ptr2int] returns, by the count read as a signed number. *)
Theorem address_after_add (M : model) (s : State) (ptr : Pointer)
    (a : expr) :
  bits a = bits_for_offset ->
  evalB M (add_no_overflow ptr a) = true ->
  signed bits_for_offset (offset_val M (ptr_add ptr a)) =
    signed bits_for_offset (offset_val M ptr)
    + signed bits_for_offset (evalBV M a)
  /\ evalBV M (ptr2int s (p (ptr_add ptr a))) =
       wrap bits_size_t
         (evalBV M (ptr2int s (p ptr))
          + signed bits_for_offset (evalBV M a)).
Proof.
  intros Ha Hno. unfold add_no_overflow in Hno. cbn [evalB] in Hno.
  rewrite bits_get_offset in Hno. fold (offset_val M ptr) in Hno.
  apply andb_prop in Hno as [Hlo Hhi].
  apply Z.leb_le in Hlo. apply Z.ltb_lt in Hhi.
  destruct (fields_ptr_add M ptr a) as [Ho _].
  destruct (is_local_ptr_add M ptr a) as (L & N & I).
  assert (S : signed bits_for_offset (offset_val M (ptr_add ptr a)) =
              signed bits_for_offset (offset_val M ptr)
              + signed bits_for_offset (evalBV M a)).
  { apply signed_unique; [lia|lia|].
    rewrite Ho, wrap_idem by lia.
    rewrite <- wrap_add_l, <- wrap_add_r.
    rewrite <- (wrap_signed _ (offset_val M ptr)) by lia.
    rewrite <- (wrap_signed _ (evalBV M a)) by lia.
    rewrite wrap_add_l, wrap_add_r. reflexivity. }
  split; [exact S|].
  unfold ptr2int.
  replace {| p := p (ptr_add ptr a) |} with (ptr_add ptr a)
    by (destruct (ptr_add ptr a); reflexivity).
  replace {| p := p ptr |} with ptr by (destruct ptr; reflexivity).
  rewrite !eval_get_address, S, L, N, I, wrap_add_l.
  f_equal. lia.
Qed.

(** ** The index variables of the general paths *)

Lemma to_string_inj (a b : Z) :
  0 <= a -> 0 <= b -> to_string a = to_string b -> a = b.
Proof.
  intros Ha Hb E. unfold to_string in E.
  apply (f_equal NilEmpty.uint_of_string) in E.
  rewrite !NilEmpty.usu in E. injection E as E.
  apply Unsigned.to_uint_inj in E. apply Z2N.inj in E; lia.
Qed.

Lemma append_inj_l (a b c : string) : (a ++ b = a ++ c)%string -> b = c.
Proof.
  induction a as [|x a IH]; cbn; intros H; [exact H|].
  injection H as H. exact (IH H).
Qed.

(** X22. The general paths of [memset] and [memcpy] bind the variable named
    after the counter [last_idx_ptr] and increment the counter.  Different
    counters give different names, so the variable of a heap is not the
    variable of the heap one such call later, and none of these names is
    the name that the constructor of [Memory] uses. *)
Theorem index_names_fresh (m : Memory) (ptr : Pointer) (src dst : Pointer)
    (store_val bytes : expr) (c1 c2 : Z) :
  (exists body,
     blocks_val (memset_lambda m ptr store_val bytes) =
       Lambda (Var (idx_name m) total_bits) body)
  /\ (exists w body,
        blocks_val (memcpy_lambda m src dst bytes) =
          Lambda (Var (idx_name m) w) body)
  /\ last_idx_ptr (memset_lambda m ptr store_val bytes) =
       u32 (last_idx_ptr m + 1)
  /\ last_idx_ptr (memcpy_lambda m src dst bytes) = u32 (last_idx_ptr m + 1)
  /\ (0 <= last_idx_ptr m < 2 ^ 32 ->
      idx_name (memset_lambda m ptr store_val bytes) <> idx_name m
      /\ idx_name (memcpy_lambda m src dst bytes) <> idx_name m)
  /\ (0 <= c1 -> 0 <= c2 -> c1 <> c2 ->
      ("#idx_" ++ to_string c1 <> "#idx_" ++ to_string c2)%string)
  /\ idx_name m <> "#idx0"%string.
Proof.
  split; [eexists; reflexivity|]. split; [do 2 eexists; reflexivity|].
  split; [reflexivity|]. split; [reflexivity|].
  assert (Hne : forall a b, 0 <= a -> 0 <= b -> a <> b ->
            ("#idx_" ++ to_string a <> "#idx_" ++ to_string b)%string).
  { intros a b Ha Hb Hab E. apply Hab. apply append_inj_l in E.
    apply to_string_inj; assumption. }
  split; [|split; [apply Hne|]].
  - intros Hc. unfold idx_name, memset_lambda, memcpy_lambda.
    cbn [last_idx_ptr].
    pose proof (u32_range (last_idx_ptr m + 1)) as R.
    assert (Hd : u32 (last_idx_ptr m + 1) <> last_idx_ptr m).
    { change (2 ^ 32) with 4294967296 in *.
      destruct (Z.eq_dec (last_idx_ptr m + 1) 4294967296) as [E|E].
      - rewrite E. change (u32 4294967296) with 0. lia.
      - rewrite u32_small; change (2 ^ 32) with 4294967296; lia. }
    split; apply Hne; lia.
  - unfold idx_name. cbn. discriminate.
Qed.

(** ** The general paths of memset and memcpy *)

(** The condition that the lambdas test, in the model of the body. *)
Lemma eval_range_cond (M : model) (idx ptr : Pointer) (bytes : expr) :
  evalB M (And (both (ptr_cmp UGE idx ptr))
               (both (ptr_cmp ULT idx (ptr_add ptr bytes)))) =
  in_range M idx ptr bytes.
Proof.
  unfold in_range, both, ptr_cmp. cbn [evalB value non_poison cmp_sem].
  destruct (fields_ptr_add M ptr bytes) as [Ho Hb].
  unfold offset_val, bid_val in *. rewrite Ho, Hb. reflexivity.
Qed.

(** In the model of the body the index variable has the bits of the pointer
    looked up, and a term that ignores the variable has its own value. *)
Lemma in_range_bind (M : model) (var q ptr bytes : expr) (x : string) :
  var = Var x total_bits -> bits q = total_bits ->
  ignores_var M var ptr -> ignores_var M var bytes ->
  let M' := bind M var (evalBV M q) in
  evalBV M' var = evalBV M q
  /\ in_range M' {| p := var |} {| p := ptr |} bytes =
       in_range M {| p := q |} {| p := ptr |} bytes.
Proof.
  intros -> Hq Hp Hb. cbv zeta.
  pose proof total_bits_pos as Ht.
  pose proof (evalBV_range M q) as R. rewrite Hq in R.
  set (M' := bind M (Var x total_bits) (evalBV M q)).
  assert (Ev : evalBV M' (Var x total_bits) = evalBV M q).
  { unfold M'. rewrite eval_bind_var. apply wrap_small. lia. }
  split; [exact Ev|].
  destruct (fields_congr M' M {| p := Var x total_bits |} {| p := q |} Ev)
    as (Eo & Eb & _).
  destruct (Hp (evalBV M q)) as (Ep & _). fold M' in Ep.
  destruct (fields_congr M' M {| p := ptr |} {| p := ptr |} Ep)
    as (Eo' & Eb' & _).
  destruct (Hb (evalBV M q)) as (Ebytes & _). fold M' in Ebytes.
  unfold in_range. rewrite Eo, Eb, Eo', Eb', Ebytes. reflexivity.
Qed.

(** X23. The general path of [memset], taken when the length is not a
    numeral of at most 4: if the pointer, the length, the value and the old
    array do not depend on the index variable, a load at a pointer [q] of
    the full width finds the non-poison flag of the value above its byte
    when [q] has the block id of [ptr] and an offset in
    [[off, off + bytes)], and the cell of the old heap otherwise. *)
Theorem memset_general_cells (M : model) (m : Memory) (s : State)
    (ptr : expr) (sv : StateValue) (bytes : expr) (align : Z) (q : expr) :
  (forall n, isUInt bytes = Some n -> 4 < n) ->
  bits (blocks_val m) = 9 -> bits (value sv) = 8 -> bits q = total_bits ->
  let var := Var (idx_name m) total_bits in
  ignores_var M var ptr -> ignores_var M var bytes ->
  ignores_var M var (value sv) -> ignores_var M var (non_poison sv) ->
  ignores_var M var (blocks_val m) ->
  let m' := fst (memset m s ptr sv bytes align) in
  evalBV M (Load (blocks_val m') q) =
    (if in_range M {| p := q |} {| p := ptr |} bytes
     then (if evalB M (non_poison sv) then 1 else 0) * 2 ^ 8
          + evalBV M (value sv)
     else evalBV M (Load (blocks_val m) q))
  /\ last_idx_ptr m' = u32 (last_idx_ptr m + 1).
Proof.
  intros Hbig Hbv H8 Hq var Hp Hb Hv Hnp Hold. cbv zeta.
  assert (E : fst (memset m s ptr sv bytes align) =
              memset_lambda m {| p := ptr |}
                (Concat (ToBVBool (non_poison sv)) (value sv)) bytes).
  { unfold memset. destruct (isUInt bytes) as [n|]; [|reflexivity].
    specialize (Hbig n eq_refl).
    destruct (n <=? 4) eqn:C; [apply Z.leb_le in C; lia|reflexivity]. }
  rewrite E. split; [|reflexivity].
  set (cell := Concat (ToBVBool (non_poison sv)) (value sv)).
  set (cond := And (both (ptr_cmp UGE {| p := var |} {| p := ptr |}))
                   (both (ptr_cmp ULT {| p := var |}
                                  (ptr_add {| p := ptr |} bytes)))).
  change (blocks_val (memset_lambda m {| p := ptr |} cell bytes))
    with (Lambda var (If cond cell (Load (blocks_val m) var))).
  rewrite eval_Load.
  change (evalA M (Lambda var (If cond cell (Load (blocks_val m) var)))
                (evalBV M q))
    with (evalBV (bind M var (evalBV M q))
                 (If cond cell (Load (blocks_val m) var))).
  destruct (in_range_bind M var q ptr bytes (idx_name m) eq_refl Hq Hp Hb)
    as [Ev Er].
  set (M' := bind M var (evalBV M q)) in *.
  destruct (Hv (evalBV M q)) as (Ev' & _). fold M' in Ev'.
  destruct (Hnp (evalBV M q)) as (_ & Enp & _). fold M' in Enp.
  destruct (Hold (evalBV M q)) as (_ & _ & Eold). fold M' in Eold.
  pose proof (evalBV_range M (value sv)) as R. rewrite H8 in R.
  assert (Hcb : bits cell = 9) by (unfold cell; cbn [bits]; lia).
  assert (Hce : forall N, evalBV N cell =
                 (if evalB N (non_poison sv) then 1 else 0) * 2 ^ 8
                 + evalBV N (value sv)).
  { intros N. unfold cell. rewrite eval_Concat by (cbn [bits]; lia).
    rewrite H8. f_equal. f_equal. cbn [evalBV bits].
    destruct (evalB N (non_poison sv)); reflexivity. }
  rewrite eval_If. unfold cond. rewrite eval_range_cond, Er.
  cbn [bits]. fold cell. rewrite Hcb, !wrap_idem by lia.
  destruct (in_range M {| p := q |} {| p := ptr |} bytes).
  - rewrite (Hce M'), Enp, Ev', <- (Hce M), <- Hcb. apply evalBV_wrap. lia.
  - rewrite !eval_Load, Ev, Eold, Hbv. apply wrap_idem. lia.
Qed.

(** X24. The general path of [memcpy]: if the two pointers, the length and
    the old array do not depend on the index variable, a load at a pointer
    [q] of the full width finds, when [q] has the block id of [dst] and an
    offset in [[off, off + bytes)], the cell that the old heap has in the
    block of [src] at the offset of [src] plus the distance from [dst] to
    [q], and the cell of the old heap at [q] otherwise. *)
Theorem memcpy_general_cells (M : model) (m : Memory) (s : State)
    (d s0 bytes : expr) (align_dst align_src : Z) (move : bool) (q : expr) :
  (forall n, isUInt bytes = Some n -> 4 < n) ->
  bits (blocks_val m) = 9 -> bits d = total_bits -> bits q = total_bits ->
  let var := Var (idx_name m) total_bits in
  let dst := {| p := d |} in
  let src := {| p := s0 |} in
  ignores_var M var d -> ignores_var M var s0 -> ignores_var M var bytes ->
  ignores_var M var (blocks_val m) ->
  let m' := fst (memcpy m s d s0 bytes align_dst align_src move) in
  evalBV M (Load (blocks_val m') q) =
    (if in_range M {| p := q |} dst bytes
     then wrap 9 (evalA M (blocks_val m)
                    (wrap bits_for_offset
                       (offset_val M src
                        + (offset_val M {| p := q |} - offset_val M dst))
                     * 2 ^ bits_for_bids + bid_val M src))
     else evalBV M (Load (blocks_val m) q))
  /\ last_idx_ptr m' = u32 (last_idx_ptr m + 1).
Proof.
  intros Hbig Hbv Hd Hq var dst src Hpd Hps Hb Hold. cbv zeta.
  assert (E : fst (memcpy m s d s0 bytes align_dst align_src move) =
              memcpy_lambda m src dst bytes).
  { unfold memcpy. destruct (isUInt bytes) as [n|]; [|reflexivity].
    specialize (Hbig n eq_refl).
    destruct (n <=? 4) eqn:C; [apply Z.leb_le in C; lia|reflexivity]. }
  rewrite E. split; [|reflexivity].
  set (src_idx := ptr_add src (Sub (get_offset {| p := var |})
                                   (get_offset dst))).
  set (cond := And (both (ptr_cmp UGE {| p := var |} dst))
                   (both (ptr_cmp ULT {| p := var |} (ptr_add dst bytes)))).
  assert (Eb : blocks_val (memcpy_lambda m src dst bytes) =
               Lambda var (If cond (Load (blocks_val m) (p src_idx))
                             (Load (blocks_val m) var))).
  { unfold memcpy_lambda, idx_name, var, cond, src_idx, dst.
    cbn [blocks_val p]. rewrite Hd. reflexivity. }
  rewrite Eb, eval_Load.
  change (evalA M (Lambda var (If cond (Load (blocks_val m) (p src_idx))
                                 (Load (blocks_val m) var)))
                (evalBV M q))
    with (evalBV (bind M var (evalBV M q))
                 (If cond (Load (blocks_val m) (p src_idx))
                     (Load (blocks_val m) var))).
  destruct (in_range_bind M var q d bytes (idx_name m) eq_refl Hq Hpd Hb)
    as [Ev Er].
  set (M' := bind M var (evalBV M q)) in *.
  destruct (Hold (evalBV M q)) as (_ & _ & Eold). fold M' in Eold.
  destruct (Hpd (evalBV M q)) as (Ed & _). fold M' in Ed.
  destruct (Hps (evalBV M q)) as (Es & _). fold M' in Es.
  destruct (fields_congr M' M {| p := var |} {| p := q |} Ev) as (Eoq & _).
  destruct (fields_congr M' M dst dst Ed) as (Eod & _).
  destruct (fields_congr M' M src src Es) as (Eos & Ebs & _).
  rewrite eval_If. unfold cond. rewrite eval_range_cond. fold dst in Er.
  rewrite Er. cbn [bits]. rewrite Hbv, !wrap_idem by lia.
  destruct (in_range M {| p := q |} dst bytes).
  - rewrite eval_Load, Hbv, wrap_idem, Eold by lia. f_equal. f_equal.
    unfold src_idx. rewrite eval_ptr_add. rewrite Eos, Ebs.
    f_equal. f_equal.
    change (evalBV M' (Sub (get_offset {| p := var |}) (get_offset dst)))
      with (wrap (bits (get_offset {| p := var |}))
              (offset_val M' {| p := var |} - offset_val M' dst)).
    rewrite bits_get_offset, Eoq, Eod. apply wrap_add_r.
  - rewrite !eval_Load, Ev, Eold, Hbv. apply wrap_idem. lia.
Qed.

End Layout.

(** * Concrete runs *)

(** The layout of the end-to-end scenarios of the specification: 16 bits of
    offset, 4 bits for each block id and a 32-bit [size_t]. *)
Definition model0 : model :=
  {| var_val := fun _ _ => 0; array_val := fun _ _ => 0;
     uf_val := fun _ _ => 0 |}.

Definition state0 : State :=
  {| isSource := true; precondition := []; undef_behavior := [] |}.

(** A model in which every local block of the source run has 65537 bytes
    and sits at the address 0. *)
Definition model1 : model :=
  {| var_val := fun _ _ => 0; array_val := fun _ _ => 0;
     uf_val := fun f _ => if String.eqb f "blks_size_src" then 65537 else 0 |}.

(** A model in which every local block of the source run has 2 bytes and
    sits at the address 0. *)
Definition model2 : model :=
  {| var_val := fun _ _ => 0; array_val := fun _ _ => 0;
     uf_val := fun f _ => if String.eqb f "blks_size_src" then 2 else 0 |}.

(** The heap of a function that has not run yet. *)
Definition mem0 : Memory :=
  match Memory_new 16 4 4 32 0 with
  | Some m => m
  | None => {| state := 0; blocks_val := Null; last_bid := 0;
               last_idx_ptr := 0 |}
  end.

(** The pointer to the start of the local block 1. *)
Definition ptr1 : Pointer := Pointer_bid 16 4 4 1 true.

(** An integer type of [b] bits, whose values are their own bits and whose
    non-poison flag is a bit. *)
Definition int_type (b : Z) : Type_ :=
  {| toBV := fun v => v; fromBV := fun v => v; type_bits := b |}.

(** A non-poison byte 0xAA, and the integer 1 on 524296 bits, that is on
    65537 bytes. *)
Definition byte_AA : StateValue :=
  {| value := UInt 170 8; non_poison := UInt 1 1 |}.

Definition wide_value : StateValue :=
  {| value := UInt 1 524296; non_poison := UInt 1 1 |}.

(** The run of C1: a local block of 65537 bytes, the store of [wide_value]
    at its start and the load of the same type from there. *)
Definition wide_alloc : expr * Memory * State :=
  alloc 16 4 4 32 Z.log2 mem0 state0 (mkUInt 65537 32) 1 true.

Definition wide_store : Memory * State :=
  store 16 4 4 32 Z.log2 (snd (fst wide_alloc)) (snd wide_alloc)
    (fst (fst wide_alloc)) wide_value (int_type 524296) 1.

Definition wide_load : StateValue * State :=
  load 16 4 4 32 Z.log2 (fst wide_store) (snd wide_store)
    (fst (fst wide_alloc)) (int_type 524296) 1.

(** The run of C2 and C3: a local block of 2 bytes, the store of the byte
    0xAA at its start and the load of 16 bits from there. *)
Definition small_alloc : expr * Memory * State :=
  alloc 16 4 4 32 Z.log2 mem0 state0 (mkUInt 2 32) 1 true.

Definition small_store : Memory * State :=
  store 16 4 4 32 Z.log2 (snd (fst small_alloc)) (snd small_alloc)
    (fst (fst small_alloc)) byte_AA (int_type 8) 1.

Definition small_load : StateValue * State :=
  load 16 4 4 32 Z.log2 (fst small_store) (snd small_store)
    (fst (fst small_alloc)) (int_type 16) 1.

(** The non-poison 32-bit value 0x01020304, the byte 0xFF with a true
    non-poison flag, and the pointer to the start of the local block 2. *)
Definition word_value : StateValue :=
  {| value := UInt 16909060 32; non_poison := UInt 1 1 |}.

Definition byte_FF : StateValue :=
  {| value := UInt 255 8; non_poison := BoolConst true |}.

Definition ptr2 : Pointer := Pointer_bid 16 4 4 2 true.

(** ** Instances of the theorems *)

Lemma ptr_add_identity_assoc_witness :
  evalBV model0 (p (ptr_add 16 4 4 32 ptr1 (mkUInt 0 16))) =
    evalBV model0 (p ptr1)
  /\ evalBV model0
       (p (ptr_add 16 4 4 32 (ptr_add 16 4 4 32 ptr1 (UInt 200 8))
             (UInt 100 8))) =
     evalBV model0 (p (ptr_add 16 4 4 32 ptr1 (UInt 300 16))).
Proof.
  destruct (ptr_add_identity_assoc 16 4 4 32 ltac:(lia) ltac:(lia) ltac:(lia)
              ltac:(lia) model0 ptr1 (UInt 200 8) (UInt 100 8) (UInt 300 16))
    as (_ & _ & H0 & Hsum & _).
  split.
  - apply H0. reflexivity.
  - apply Hsum. reflexivity.
Defined.

Lemma ptr_add_u_modulo_witness :
  ptr_add_u 16 4 4 32 ptr1 65539 = ptr_add_u 16 4 4 32 ptr1 3.
Proof.
  destruct (ptr_add_u_modulo 16 4 4 32 ltac:(lia) ltac:(lia) ltac:(lia)
              ltac:(lia) model0 ptr1 65539 ltac:(lia))
    as (_ & _ & H & _).
  exact H.
Defined.

Lemma is_dereferenceable_one_ub_witness :
  exists cond,
    undef_behavior
      (is_dereferenceable 16 4 4 32 Z.log2 state0 ptr1 (mkUInt 4 32) 4) =
    undef_behavior state0 ++ [cond]
    /\ evalB model1 cond = true.
Proof.
  destruct (is_dereferenceable_one_ub 16 4 4 32 Z.log2 ltac:(lia) ltac:(lia)
              model1 state0 ptr1 (mkUInt 4 32) 4)
    as (H1 & _ & _ & _ & H2 & _).
  eexists. split; [exact H1|].
  apply H2. intros _. vm_compute.
  split; [discriminate|split; reflexivity].
Defined.

Lemma alloc_preconditions_witness :
  In (is_aligned 16 4 4 32 Z.log2 state0 ptr1 8)
     (precondition (snd (alloc 16 4 4 32 Z.log2 mem0 state0 (mkUInt 4 32) 8
                           true)))
  /\ evalB model0 (is_local 4 4 ptr1) = true
  /\ evalBV model0 (get_local_bid 4 4 ptr1) = 1.
Proof.
  pose proof (alloc_preconditions 16 4 4 32 Z.log2 ltac:(lia) ltac:(lia)
                ltac:(lia) model0 mem0 state0 (mkUInt 4 32) 8 true eq_refl)
    as H.
  unfold alloc in H.
  destruct H as (_ & _ & _ & _ & _ & _ & _ & H & F).
  split; [apply (H eq_refl)|].
  destruct (F ltac:(vm_compute; discriminate)
              ltac:(vm_compute; discriminate)) as (F1 & F2 & _).
  split; [exact F1|exact F2].
Defined.

Lemma alloc_local_is_local_witness :
  evalB model0
    (is_local 4 4
       {| p := fst (fst (alloc 16 4 4 32 Z.log2 mem0 state0 (mkUInt 4 32) 4
                           true)) |}) = true.
Proof.
  pose proof (alloc_local_is_local 16 4 4 32 Z.log2 ltac:(lia) ltac:(lia)
                ltac:(lia) model0 mem0 state0 (mkUInt 4 32) 4
                ltac:(vm_compute; discriminate)
                ltac:(vm_compute; discriminate)) as H.
  unfold alloc in H.
  destruct H as (_ & _ & _ & H & _).
  exact H.
Defined.

Lemma memcpy_small_unrolled_witness :
  evalA model0
    (blocks_val (fst (memcpy 16 4 4 32 Z.log2 mem0 state0
                        (p (ptr_add_u 16 4 4 32 ptr1 2)) (p ptr1)
                        (mkUInt 4 32) 1 1 true)))
    (evalBV model0
       (p (ptr_add_u 16 4 4 32
             {| p := p (ptr_add_u 16 4 4 32 ptr1 2) |} 3))) =
  evalBV model0
    (Load (blocks_val mem0)
          (p (ptr_add_u 16 4 4 32 {| p := p ptr1 |} 3))).
Proof.
  destruct (memcpy_small_unrolled 16 4 4 32 Z.log2 ltac:(lia) ltac:(lia)
              ltac:(lia) ltac:(lia) model0 mem0 state0
              (p (ptr_add_u 16 4 4 32 ptr1 2)) (p ptr1) (mkUInt 4 32) 1 1
              true 4 eq_refl ltac:(lia))
    as (_ & _ & _ & H & _).
  apply H. lia.
Defined.

Lemma mkIf_negation_witness :
  exists x y,
    mkIf (Not (BoolConst true)) mem0 (set_blocks_val mem0 Null) = Some x
    /\ mkIf (BoolConst true) (set_blocks_val mem0 Null) mem0 = Some y
    /\ forall i, evalA model0 (blocks_val x) i = evalA model0 (blocks_val y) i.
Proof.
  destruct (mkIf_negation model0 (BoolConst true) mem0
              (set_blocks_val mem0 Null) eq_refl)
    as (x & y & Hx & Hy & _ & _ & _ & _ & _ & _ & _ & H).
  exists x, y. split; [exact Hx|]. split; [exact Hy|exact H].
Defined.

Lemma load_after_store_witness :
  exists val',
    fst (load 16 4 4 32 Z.log2 (fst small_store) (snd small_store)
           (fst (fst small_alloc)) (int_type 8) 1) = val'
    /\ evalBV model0 (value val') = 170
    /\ evalBV model0 (non_poison val') = 1.
Proof.
  pose proof (load_after_store 16 4 4 32 Z.log2 ltac:(lia) ltac:(lia)
                ltac:(lia) ltac:(lia) model0 (snd (fst small_alloc))
                (snd small_alloc) (fst (fst small_alloc)) byte_AA
                (int_type 8) 1 eq_refl eq_refl eq_refl
                ltac:(vm_compute; split; reflexivity)
                ltac:(vm_compute; discriminate)) as H.
  unfold store in H.
  destruct H as (val' & Hl & _ & _ & Hv & Hp).
  exists val'. split; [exact Hl|]. split; [exact Hv|exact Hp].
Defined.

(** A sum formed on fewer bits than the offset wraps too early: with the
    8-bit counts 200 and 100 the sum term is 44, so adding it moves the
    pointer by 44 where the two additions move it by 300. *)
Lemma narrow_sum_wraps :
  offset_val 16 4 4 model0
    (ptr_add 16 4 4 32 (ptr_add 16 4 4 32 ptr1 (UInt 200 8)) (UInt 100 8))
  = 300
  /\ offset_val 16 4 4 model0
       (ptr_add 16 4 4 32 ptr1 (Add (UInt 200 8) (UInt 100 8))) = 44.
Proof. vm_compute. split; reflexivity. Qed.

(** ** Runs on which a claim fails as it is stated *)

(** C1, as stated, fails for a value of more bytes than the offset field
    can count.  In [model1] the preconditions of the run hold and so do the
    undefined-behaviour conditions, the two dereference guards among them,
    yet the load does not give back the bits that were stored: the value is
    1 and the low byte of the loaded bits is 0, the last byte of the value,
    whose store went to the address of the first byte. *)
Lemma load_after_wide_store_differs :
  forallb (evalB model1) (precondition (snd wide_load)) = true
  /\ forallb (evalB model1) (undef_behavior (snd wide_load)) = true
  /\ List.length (undef_behavior (snd wide_load)) = 2%nat
  /\ evalBV model1 (value wide_value) = 1
  /\ evalBV model1 (value (fst wide_load)) mod 2 ^ 8 = 0
  /\ evalBV model1 (value (fst wide_load)) <>
     evalBV model1 (value wide_value).
Proof.
  assert (Hs : forallb (evalB model1) (precondition (snd wide_load)) = true
               /\ forallb (evalB model1) (undef_behavior (snd wide_load))
                  = true
               /\ List.length (undef_behavior (snd wide_load)) = 2%nat).
  { unfold wide_load. rewrite state_after_load.
    unfold wide_store. rewrite state_after_store.
    repeat split; vm_compute; reflexivity. }
  assert (Hlow : evalBV model1 (value (fst wide_load)) mod 2 ^ 8 = 0).
  { destruct (load_after_store_low_byte 16 4 4 32 Z.log2 model1
                (snd (fst wide_alloc)) (snd wide_alloc) (snd wide_store)
                (fst (fst wide_alloc)) wide_value (int_type 524296) 1
                (Z.to_nat 65536))
      as (val & Hl & Hv).
    - reflexivity.
    - reflexivity.
    - reflexivity.
    - vm_compute; discriminate.
    - vm_compute; reflexivity.
    - vm_compute; reflexivity.
    - change (fst wide_load = val) in Hl. rewrite Hl.
      rewrite !wrap_mod in Hv. rewrite Hv.
      replace (evalBV model1 (value (toBV (int_type 524296) wide_value)))
        with 1 by (vm_compute; reflexivity).
      assert (He : 0 < 8 * Z.of_nat (Z.to_nat 65536))
        by (vm_compute; reflexivity).
      set (e := 8 * Z.of_nat (Z.to_nat 65536)) in *. clearbody e.
      rewrite Z.div_small; [reflexivity|].
      pose proof (proj1 (Z.pow_gt_1 2 e ltac:(lia)) He). lia. }
  assert (Hval : evalBV model1 (value wide_value) = 1)
    by (vm_compute; reflexivity).
  destruct Hs as (Hpre & Hub & Hlen).
  split; [exact Hpre|]. split; [exact Hub|]. split; [exact Hlen|].
  split; [exact Hval|]. split; [exact Hlow|].
  intros E. rewrite E, Hval in Hlow. clear E.
  vm_compute in Hlow. discriminate Hlow.
Qed.

(** C9, as stated, fails: in a heap that made 15 allocations the counter
    stands at 15, and the next local allocation gets the block id 16, which
    is 0 on the 4 bits of the field: the pointer returned is the null term
    and [is_local] is false of it. *)
Lemma alloc_local_bid_wraps :
  exists m ptr m' s',
    Memory_new 16 4 4 32 0 = Some m
    /\ alloc_many 16 4 4 32 Z.log2 15 m state0 (mkUInt 4 32) 4 = (ptr, m', s')
    /\ last_bid m' = 16
    /\ evalBV model0 (get_local_bid 4 4 {| p := ptr |}) = 0
    /\ evalB model0 (is_local 4 4 {| p := ptr |}) = false
    /\ evalBV model0 ptr = 0.
Proof.
  eexists; eexists; eexists; eexists.
  split; [reflexivity|].
  split; [vm_compute; reflexivity|].
  vm_compute. repeat split.
Qed.

(** C3, as stated, fails: the byte 0xAA stored with the flag 1, that is as a
    byte that is not poison, leaves the cell 0x1AA, whose top bit is 1. *)
Lemma stored_top_bit_is_non_poison :
  let cell :=
    evalBV model2 (Load (blocks_val (fst small_store)) (fst (fst small_alloc)))
  in
  evalBV model2 (non_poison byte_AA) = 1
  /\ cell = 426
  /\ Z.testbit cell 8 = true
  /\ ~ (Z.testbit cell 8 = true <-> evalBV model2 (non_poison byte_AA) = 0).
Proof.
  vm_compute. repeat split; try reflexivity.
  intros [H _]. specialize (H eq_refl). discriminate H.
Qed.

(** C5, as stated, fails for the overload that takes a machine integer:
    with an offset of 16 bits the count 65536 becomes the numeral 0, so the
    condition that is added for 65536 bytes holds for a block of 2 bytes,
    and the count 65537 becomes 1, so the condition added for 65537 bytes
    holds for that block too, though neither count is at most the block
    size. *)
Lemma dereferenceable_count_wraps :
  exists c1 c2,
    undef_behavior (is_dereferenceable_u 16 4 4 32 Z.log2 state0 ptr1 65536 1)
      = [c1]
    /\ undef_behavior
         (is_dereferenceable_u 16 4 4 32 Z.log2 state0 ptr1 65537 1) = [c2]
    /\ offset_val 16 4 4 model2 ptr1 = 0
    /\ evalBV model2 (block_size 4 4 32 state0 ptr1) = 2
    /\ evalB model2 (is_aligned 16 4 4 32 Z.log2 state0 ptr1 1) = true
    /\ evalB model2 c1 = true
    /\ evalB model2 c2 = true
    /\ ~ (0 < 65536 ->
          offset_val 16 4 4 model2 ptr1 + 65536 <=
          evalBV model2 (block_size 4 4 32 state0 ptr1))
    /\ ~ (0 < 65537 ->
          offset_val 16 4 4 model2 ptr1 + 65537 <=
          evalBV model2 (block_size 4 4 32 state0 ptr1)).
Proof.
  eexists; eexists.
  split; [reflexivity|]. split; [reflexivity|].
  split; [reflexivity|]. split; [reflexivity|].
  split; [reflexivity|]. split; [reflexivity|]. split; [reflexivity|].
  change (offset_val 16 4 4 model2 ptr1) with 0.
  change (evalBV model2 (block_size 4 4 32 state0 ptr1)) with 2.
  split; intros H; specialize (H eq_refl); lia.
Qed.

(** C6, as stated, fails: in a heap that made 15 allocations the counter
    stands at 15, and the next allocation, asked for a block that is not
    local, gets the block id 16, which does not fit the 4 bits of the
    non-local field: the pointer returned has the local block id 1 and the
    non-local block id 0, and [is_local] holds of it. *)
Lemma alloc_nonlocal_counts_as_local :
  exists m q m1 s1 ptr m' s',
    Memory_new 16 4 4 32 0 = Some m
    /\ alloc_many 16 4 4 32 Z.log2 14 m state0 (mkUInt 4 32) 4 = (q, m1, s1)
    /\ last_bid m1 = 15
    /\ alloc 16 4 4 32 Z.log2 m1 s1 (mkUInt 4 32) 4 false = (ptr, m', s')
    /\ last_bid m' = 16
    /\ evalBV model0 (get_local_bid 4 4 {| p := ptr |}) = 1
    /\ evalBV model0 (get_nonlocal_bid 4 {| p := ptr |}) = 0
    /\ evalB model0 (is_local 4 4 {| p := ptr |}) = true.
Proof.
  eexists; eexists; eexists; eexists; eexists; eexists; eexists.
  split; [reflexivity|].
  split; [vm_compute; reflexivity|].
  split; [reflexivity|].
  split; [vm_compute; reflexivity|].
  vm_compute. repeat split.
Qed.

(** ** The flag of a load over a poison byte *)

(** C2 at a heap with one poison byte.  In [model2] the preconditions and
    the undefined-behaviour conditions of the run hold.  The first byte of
    the block was stored with the flag 1 and the second byte was never
    written: its cell is the all-zero cell that the constructor of [Memory]
    gives to local blocks as poison.  The load of 16 bits returns the flag
    1, the bitwise or of 1 and 0. *)
Lemma load_over_poison_byte_flag :
  forallb (evalB model2) (precondition (snd small_load)) = true
  /\ forallb (evalB model2) (undef_behavior (snd small_load)) = true
  /\ flag_at 16 4 4 32 model2 (blocks_val (fst small_store))
       {| p := fst (fst small_alloc) |} 0 = 1
  /\ evalBV model2
       (Load (blocks_val (fst small_store))
             (p (ptr_add_u 16 4 4 32 {| p := fst (fst small_alloc) |} 1))) = 0
  /\ flag_at 16 4 4 32 model2 (blocks_val (fst small_store))
       {| p := fst (fst small_alloc) |} 1 = 0
  /\ evalBV model2 (non_poison (fst small_load)) = 1
  /\ evalBV model2 (value (fst small_load)) = 170.
Proof. vm_compute. repeat split. Qed.

(** ** Instances of the further properties *)

Lemma Pointer_fields_round_trip_witness :
  evalBV model0
    (p (Pointer_fields (get_offset 16 4 4 ptr1) (get_local_bid 4 4 ptr1)
                       (get_nonlocal_bid 4 ptr1))) =
  evalBV model0 (p ptr1).
Proof.
  apply (proj2 (Pointer_fields_round_trip 16 4 4 ltac:(lia) ltac:(lia)
                  ltac:(lia) model0 ptr1 (UInt 5 16) (UInt 1 4) (UInt 0 4))).
  reflexivity.
Defined.

Lemma is_local_stable_witness :
  evalB model0 (is_local 4 4 (ptr_add 16 4 4 32 ptr1 (UInt 7 16))) =
  evalB model0 (is_local 4 4 ptr1).
Proof.
  exact (proj1 (is_local_stable 16 4 4 32 ltac:(lia) ltac:(lia) ltac:(lia)
                  ltac:(lia) model0 ptr1 (UInt 7 16))).
Defined.

Lemma ptr_eq_same_bits_witness :
  evalB model0 (ptr_eq 16 4 4 ptr1 ptr2) = true <->
  evalBV model0 (p ptr1) = evalBV model0 (p ptr2).
Proof.
  destruct (ptr_eq_same_bits 16 4 4 ltac:(lia) ltac:(lia) ltac:(lia) model0
              ptr1 ptr2) as (_ & H & _).
  apply H; reflexivity.
Defined.

Lemma ptr_cmp_same_block_witness :
  evalB model0
    (non_poison (ptr_cmp 16 4 4 ULT (ptr_add 16 4 4 32 ptr1 (UInt 4 16))
                         ptr1)) = true.
Proof.
  destruct (ptr_cmp_same_block 16 4 4 32 ltac:(lia) ltac:(lia) ltac:(lia)
              ltac:(lia) model0 ULT ptr1 ptr1 ptr1 (UInt 4 16) (UInt 0 16))
    as (_ & _ & _ & H).
  exact H.
Defined.

Lemma block_size_top_bit_clear_witness :
  Z.testbit (evalBV model1 (block_size 4 4 32 state0 ptr1)) (32 - 1) = false.
Proof.
  destruct (block_size_top_bit_clear 16 4 4 32 ltac:(lia) ltac:(lia) model1
              state0 ptr1) as (_ & _ & H).
  exact H.
Defined.

Lemma inbounds_signed_offset_witness :
  evalB model1 (inbounds 16 4 4 32 state0 ptr1) = true.
Proof.
  apply (inbounds_signed_offset 16 4 4 32 ltac:(lia) ltac:(lia) model1 state0
           ptr1).
  vm_compute. split; discriminate.
Defined.

Lemma zero_bytes_dereferenceable_witness :
  exists cond,
    undef_behavior
      (is_dereferenceable 16 4 4 32 Z.log2 state0 ptr1 (mkUInt 0 32) 4) =
    undef_behavior state0 ++ [cond]
    /\ evalB model0 cond = true.
Proof.
  apply (proj1 (zero_bytes_dereferenceable 16 4 4 32 Z.log2 ltac:(lia)
                  ltac:(lia) model0 state0 ptr1 (mkUInt 0 32) 4)).
  reflexivity.
Defined.

Lemma dereferenceable_inbounds_witness :
  exists cond,
    undef_behavior
      (is_dereferenceable 16 4 4 32 Z.log2 state0 ptr1 (mkUInt 4 32) 4) =
    undef_behavior state0 ++ [cond]
    /\ (evalB model1 cond = true ->
        evalB model1 (inbounds 16 4 4 32 state0 ptr1) = true
        /\ wrap 32 (evalBV model1 (mkUInt 4 32)) <=
           evalBV model1 (block_size 4 4 32 state0 ptr1)
        /\ evalB model1 (is_aligned 16 4 4 32 Z.log2 state0 ptr1 4) = true).
Proof.
  apply (dereferenceable_inbounds 16 4 4 32 Z.log2 ltac:(lia) ltac:(lia)
           model1 state0 ptr1 (mkUInt 4 32) 4).
  vm_compute. reflexivity.
Defined.

Lemma is_disjoint_symmetric_witness :
  exists c1 c2,
    undef_behavior
      (is_disjoint 16 4 4 32 state0 ptr1 (mkUInt 4 32) ptr2 (mkUInt 4 32)) =
    undef_behavior state0 ++ [c1]
    /\ undef_behavior
         (is_disjoint 16 4 4 32 state0 ptr2 (mkUInt 4 32) ptr1 (mkUInt 4 32))
       = undef_behavior state0 ++ [c2]
    /\ evalB model0 c1 = evalB model0 c2.
Proof.
  destruct (is_disjoint_symmetric 16 4 4 32 ltac:(lia) ltac:(lia) model0
              state0 ptr1 ptr2 (mkUInt 4 32) (mkUInt 4 32))
    as (c1 & c2 & H1 & _ & H2 & H3 & _).
  exists c1, c2. split; [exact H1|]. split; [exact H2|exact H3].
Defined.


Lemma load_fresh_local_is_poison_witness :
  exists val,
    fst (load 16 4 4 32 Z.log2 mem0 state0 (p ptr1) (int_type 32) 4) = val
    /\ evalBV model0 (value val) = 0
    /\ evalBV model0 (non_poison val) = 0.
Proof.
  exact (load_fresh_local_is_poison 16 4 4 32 Z.log2 ltac:(lia) ltac:(lia)
           ltac:(lia) ltac:(lia) model0 0%nat mem0 state0 (p ptr1)
           (int_type 32) 4 eq_refl eq_refl ltac:(vm_compute; reflexivity)).
Defined.

Lemma mkInput_not_local_witness :
  evalB model0 (is_local 4 4 {| p := fst (mkInput 16 4 4 "x") |}) = false.
Proof.
  destruct (mkInput_not_local 16 4 4 ltac:(lia) ltac:(lia) ltac:(lia) model0
              "x") as (_ & _ & _ & H & _).
  exact H.
Defined.

Lemma alloc_local_fresh_witness :
  let '(p1, m1, s1) := alloc 16 4 4 32 Z.log2 mem0 state0 (mkUInt 4 32) 4
                         true in
  let '(p2, _, _) := alloc_many 16 4 4 32 Z.log2 2 m1 s1 (mkUInt 8 32) 1 in
  evalBV model0 (get_local_bid 4 4 {| p := p1 |}) <>
    evalBV model0 (get_local_bid 4 4 {| p := p2 |})
  /\ evalB model0 (ptr_eq 16 4 4 {| p := p1 |} {| p := p2 |}) = false
  /\ evalBV model0 p1 <> evalBV model0 p2.
Proof.
  exact (alloc_local_fresh 16 4 4 32 Z.log2 ltac:(lia) ltac:(lia)
           ltac:(lia) model0 2%nat mem0 state0 (mkUInt 4 32)
           (mkUInt 8 32) 4 1 ltac:(vm_compute; discriminate)
           ltac:(vm_compute; discriminate)
           ltac:(vm_compute; reflexivity) ltac:(vm_compute; reflexivity)).
Defined.

Lemma alloc_nonlocal_fields_witness :
  evalB model0
    (is_local 4 4
       {| p := fst (fst (alloc 16 4 4 32 Z.log2 mem0 state0 (mkUInt 4 32) 4
                           false)) |}) = false.
Proof.
  pose proof (alloc_nonlocal_fields 16 4 4 32 Z.log2 ltac:(lia) ltac:(lia)
                ltac:(lia) model0 mem0 state0 (mkUInt 4 32) 4
                ltac:(vm_compute; discriminate)) as H.
  unfold alloc in H. destruct H as (_ & _ & H & _).
  apply H. vm_compute. reflexivity.
Defined.

Lemma store_frame_witness :
  evalBV model0 (Load (blocks_val (fst small_store)) (p ptr2)) =
  evalBV model0 (Load (blocks_val (snd (fst small_alloc))) (p ptr2)).
Proof.
  destruct (store_frame 16 4 4 32 Z.log2 ltac:(lia) ltac:(lia) ltac:(lia)
              ltac:(lia) model0 (snd (fst small_alloc)) (snd small_alloc)
              (fst (fst small_alloc)) (p ptr2) byte_AA (int_type 8) 1)
    as (_ & H & _).
  apply H. vm_compute. discriminate.
Defined.

Lemma narrow_load_after_store_witness :
  exists val',
    fst (load 16 4 4 32 Z.log2
           (fst (store 16 4 4 32 Z.log2 mem0 state0 (p ptr1) word_value
                   (int_type 32) 4))
           state0 (p ptr1) (int_type 8) 1) = val'
    /\ evalBV model0 (value val') = 4
    /\ evalBV model0 (non_poison val') = 1.
Proof.
  destruct (narrow_load_after_store 16 4 4 32 Z.log2 ltac:(lia) ltac:(lia)
              ltac:(lia) ltac:(lia) model0 mem0 state0 state0 (p ptr1)
              word_value (int_type 32) (int_type 8) 4 1 eq_refl eq_refl
              ltac:(vm_compute; split; reflexivity)
              ltac:(vm_compute; discriminate)
              ltac:(vm_compute; reflexivity)
              ltac:(vm_compute; discriminate))
    as (val' & Hl & _ & Hv & Hp).
  exists val'. split; [exact Hl|]. split; [exact Hv|exact Hp].
Defined.

Lemma memset_small_cells_witness :
  byte_at 16 4 4 32 model0
    (blocks_val (fst (memset 16 4 4 32 Z.log2 mem0 state0 (p ptr1) byte_FF
                        (mkUInt 3 32) 1)))
    {| p := p ptr1 |} 2 = 255.
Proof.
  destruct (memset_small_cells 16 4 4 32 Z.log2 model0 mem0 state0 (p ptr1)
              byte_FF (mkUInt 3 32) 1 3 eq_refl ltac:(lia) eq_refl eq_refl)
    as (H & _).
  destruct (H 2 ltac:(lia)) as (_ & Hb & _). exact Hb.
Defined.

Lemma address_after_add_witness :
  evalBV model0
    (ptr2int 16 4 4 32 state0
       (p (ptr_add 16 4 4 32 (ptr_add 16 4 4 32 ptr1 (UInt 8 16))
             (UInt 65535 16)))) =
  wrap 32
    (evalBV model0
       (ptr2int 16 4 4 32 state0 (p (ptr_add 16 4 4 32 ptr1 (UInt 8 16))))
     + signed 16 (evalBV model0 (UInt 65535 16))).
Proof.
  destruct (address_after_add 16 4 4 32 ltac:(lia) ltac:(lia) ltac:(lia)
              ltac:(lia) model0 state0 (ptr_add 16 4 4 32 ptr1 (UInt 8 16))
              (UInt 65535 16) eq_refl ltac:(vm_compute; reflexivity))
    as (_ & H).
  exact H.
Defined.

Lemma memset_general_cells_witness :
  evalBV model0
    (Load (blocks_val (fst (memset 16 4 4 32 Z.log2 mem0 state0 (p ptr1)
                              byte_FF (mkUInt 8 32) 1)))
          (p (ptr_add_u 16 4 4 32 ptr1 5))) = 511
  /\ evalBV model0
       (Load (blocks_val (fst (memset 16 4 4 32 Z.log2 mem0 state0 (p ptr1)
                                 byte_FF (mkUInt 8 32) 1)))
             (p (ptr_add_u 16 4 4 32 ptr1 8))) = 0.
Proof.
  assert (Hbig : forall n, isUInt (mkUInt 8 32) = Some n -> 4 < n).
  { intros n H. injection H as <-. reflexivity. }
  split.
  - refine (eq_trans
              (proj1 (memset_general_cells 16 4 4 32 Z.log2 ltac:(lia)
                        ltac:(lia) ltac:(lia) ltac:(lia) model0 mem0 state0
                        (p ptr1) byte_FF (mkUInt 8 32) 1
                        (p (ptr_add_u 16 4 4 32 ptr1 5))
                        Hbig eq_refl eq_refl eq_refl _ _ _ _ _)) _);
      try (intros a; split; [reflexivity|split; [reflexivity|]];
           intros j; reflexivity).
    vm_compute. reflexivity.
  - refine (eq_trans
              (proj1 (memset_general_cells 16 4 4 32 Z.log2 ltac:(lia)
                        ltac:(lia) ltac:(lia) ltac:(lia) model0 mem0 state0
                        (p ptr1) byte_FF (mkUInt 8 32) 1
                        (p (ptr_add_u 16 4 4 32 ptr1 8))
                        Hbig eq_refl eq_refl eq_refl _ _ _ _ _)) _);
      try (intros a; split; [reflexivity|split; [reflexivity|]];
           intros j; reflexivity).
    vm_compute. reflexivity.
Defined.

Lemma memcpy_general_cells_witness :
  evalBV model0
    (Load (blocks_val (fst (memcpy 16 4 4 32 Z.log2 (fst small_store)
                              (snd small_store)
                              (p (ptr_add_u 16 4 4 32 ptr1 16)) (p ptr1)
                              (mkUInt 8 32) 1 1 false)))
          (p (ptr_add_u 16 4 4 32 ptr1 16))) = 426.
Proof.
  assert (Hbig : forall n, isUInt (mkUInt 8 32) = Some n -> 4 < n).
  { intros n H. injection H as <-. reflexivity. }
  refine (eq_trans
            (proj1 (memcpy_general_cells 16 4 4 32 Z.log2 ltac:(lia)
                      ltac:(lia) ltac:(lia) ltac:(lia) model0
                      (fst small_store) (snd small_store)
                      (p (ptr_add_u 16 4 4 32 ptr1 16)) (p ptr1)
                      (mkUInt 8 32) 1 1 false
                      (p (ptr_add_u 16 4 4 32 ptr1 16))
                      Hbig eq_refl eq_refl eq_refl _ _ _ _)) _);
    try (intros a; split; [reflexivity|split; [reflexivity|]];
         intros j; reflexivity).
  vm_compute. reflexivity.
Defined.

Lemma mkIf_selects_witness :
  exists r,
    mkIf (BoolConst false) (fst small_store) mem0 = Some r
    /\ evalA model0 (blocks_val r) (evalBV model0 (p ptr1)) =
       evalA model0 (blocks_val mem0) (evalBV model0 (p ptr1))
    /\ last_bid r = 1.
Proof.
  eexists. split; [reflexivity|].
  destruct (mkIf_selects model0 (BoolConst false) (fst small_store) mem0)
    as (_ & H & _).
  destruct (H _ eq_refl) as (_ & Hc & _).
  split; [exact (Hc (evalBV model0 (p ptr1)))|reflexivity].
Defined.

Lemma index_names_fresh_witness :
  idx_name (memset_lambda 16 4 4 32 mem0 ptr1 (UInt 511 9) (mkUInt 8 32)) <>
  idx_name mem0.
Proof.
  destruct (index_names_fresh 16 4 4 32 mem0 ptr1 ptr1 ptr2 (UInt 511 9)
              (mkUInt 8 32) 0 1) as (_ & _ & _ & _ & H & _).
  apply H. vm_compute. split; [discriminate|reflexivity].
Defined.
